(** * repository-words-grepper: a shallow embedding of the analysis pipeline

    The repository holds two variants of one Go program:
    - [main.go] runs [grep --only-matching], counts the output lines per
      file and ranks the repositories (module [LineMode] below);
    - an older near-duplicate runs [grep --count] and reads the counts
      from the output (module [CountMode] below).

    Go values are embedded as follows: [string] is a byte string, [int] is
    a 64-bit two's-complement integer carried by [Z] with the wrap-around
    written out, slices are lists (a nil slice and an empty slice are both
    [[]]), a [map[string]int] is a [gmap string Z], and a function that can
    panic, exit the process or write to the log returns in the monad [M]. *)

From Stdlib Require Import ZArith Ascii String.
From stdpp Require Import gmap strings list fin_maps sorting.

Local Open Scope Z_scope.

(** ** Go's [int] *)

Definition MinInt : Z := - 2 ^ 63.
Definition MaxInt : Z := 2 ^ 63 - 1.

(** Reduction of a mathematical integer to the 64-bit signed range. *)
Definition wrap (z : Z) : Z := (z + 2 ^ 63) `mod` 2 ^ 64 - 2 ^ 63.

Definition int_add (a b : Z) : Z := wrap (a + b).

Definition in_int (z : Z) : Prop := MinInt ≤ z ≤ MaxInt.

(** ** Go's [strings] package, on byte strings *)

(** [s[n:]] and [s[:n]] for [n ≤ len(s)]. *)
Fixpoint slice_from (n : nat) (s : string) : string :=
  match n, s with
  | O, _ => s
  | S n', String _ s' => slice_from n' s'
  | S _, EmptyString => EmptyString
  end.

Fixpoint slice_to (n : nat) (s : string) : string :=
  match n, s with
  | O, _ => EmptyString
  | S n', String c s' => String c (slice_to n' s')
  | S _, EmptyString => EmptyString
  end.

(** [strings.HasPrefix]. *)
Fixpoint HasPrefix (s prefix : string) {struct prefix} : bool :=
  match prefix, s with
  | EmptyString, _ => true
  | String c p', String d s' => if decide (c = d) then HasPrefix s' p' else false
  | String _ _, EmptyString => false
  end.

(** [strings.Index]: the position of the first instance of [substr] in
    [s]; [None] stands for Go's [-1]. *)
Fixpoint Index (s substr : string) : option nat :=
  if HasPrefix s substr then Some O
  else match s with
       | EmptyString => None
       | String _ s' => S <$> Index s' substr
       end.

(** [strings.Contains]. *)
Definition Contains (s substr : string) : bool :=
  match Index s substr with Some _ => true | None => false end.

(** The loop of [strings.genSplit]: cut [s] at the first instance of [sep]
    and go on with what follows it.  Go bounds the loop by
    [strings.Count(s, sep)]; [n] is any bound that is at least that. *)
Fixpoint genSplit (n : nat) (s sep : string) : list string :=
  match n with
  | O => [s]
  | S n' =>
      match Index s sep with
      | None => [s]
      | Some m => slice_to m s :: genSplit n' (slice_from (m + String.length sep) s) sep
      end
  end.

(** The empty separator makes Go split after each UTF-8 sequence; the
    program never passes it (its separators are a newline, a colon and
    [basePath + "/"]), and the bytes are returned one by one here. *)
Fixpoint explode (s : string) : list string :=
  match s with
  | EmptyString => []
  | String c s' => String c EmptyString :: explode s'
  end.

(** [strings.Split]. *)
Definition Split (s sep : string) : list string :=
  match sep with
  | EmptyString => explode s
  | String _ _ => genSplit (String.length s) s sep
  end.

(** [strings.Join]. *)
Fixpoint Join (elems : list string) (sep : string) : string :=
  match elems with
  | [] => EmptyString
  | [e] => e
  | e :: rest => e +:+ sep +:+ Join rest sep
  end.

(** ** [strconv.Atoi] *)

Definition digit_value (c : ascii) : option Z :=
  let n := Z.of_N (N_of_ascii c) in
  if decide (48 ≤ n ≤ 57) then Some (n - 48) else None.

(** The digits of an unsigned numeral, most significant first; [None] on
    any other byte. *)
Fixpoint parse_digits (acc : Z) (s : string) : option Z :=
  match s with
  | EmptyString => Some acc
  | String c s' =>
      match digit_value c with
      | Some d => parse_digits (acc * 10 + d) s'
      | None => None
      end
  end.

Definition dquote : string := String (ascii_of_nat 34) EmptyString.
Definition backslash : string := String (ascii_of_nat 92) EmptyString.

Definition hexDigit (n : N) : string :=
  String (ascii_of_N (if decide (n < 10)%N then 48 + n else 87 + n)) EmptyString.

(** [strconv.Quote], byte by byte: the double quote and the backslash get
    a backslash in front, the control bytes their escape ([\a], [\b],
    [\f], [\n], [\r], [\t], [\v], or [\x] and two hexadecimal digits),
    every other byte below 0x7f stands for itself.  A byte from 0x80 on
    is kept: the text is taken to be UTF-8 that spells printable runes,
    which Go keeps as well. *)
Definition quoteByte (c : ascii) : string :=
  let n := N_of_ascii c in
  if decide (n = 34 ∨ n = 92)%N then backslash +:+ String c EmptyString
  else if decide (n = 7)%N then backslash +:+ "a"
  else if decide (n = 8)%N then backslash +:+ "b"
  else if decide (n = 12)%N then backslash +:+ "f"
  else if decide (n = 10)%N then backslash +:+ "n"
  else if decide (n = 13)%N then backslash +:+ "r"
  else if decide (n = 9)%N then backslash +:+ "t"
  else if decide (n = 11)%N then backslash +:+ "v"
  else if decide (n < 32 ∨ n = 127)%N then
    backslash +:+ "x" +:+ hexDigit (n / 16) +:+ hexDigit (n `mod` 16)
  else String c EmptyString.

Fixpoint quoteBytes (s : string) : string :=
  match s with
  | EmptyString => EmptyString
  | String c s' => quoteByte c +:+ quoteBytes s'
  end.

Definition Quote (s : string) : string := dquote +:+ quoteBytes s +:+ dquote.

(** The text of a [*strconv.NumError] of [Atoi]. *)
Definition NumError (s why : string) : string :=
  "strconv.Atoi: parsing " +:+ Quote s +:+ ": " +:+ why.

(** [Atoi] accepts an optional sign followed by at least one decimal digit
    and a value that fits [int]; [inr] carries the text of the error
    (syntax or range) otherwise. *)
Definition Atoi (s : string) : Z + string :=
  let '(neg, body) :=
    match s with
    | String "-"%char rest => (true, rest)
    | String "+"%char rest => (false, rest)
    | _ => (false, s)
    end in
  match body with
  | EmptyString => inr (NumError s "invalid syntax")
  | String _ _ =>
      match parse_digits 0 body with
      | Some n =>
          let v := if neg then - n else n in
          if decide (MinInt ≤ v ≤ MaxInt) then inl v
          else inr (NumError s "value out of range")
      | None => inr (NumError s "invalid syntax")
      end
  end.

(** ** Data model (the struct types of both variants) *)

(** Go lets two structs share a field name; here [Config.ExcludeDirs] is
    [cfgExcludeDirs], [ResultFile.SearchWords] is [rfSearchWords] and
    [Application.Name] is [appName]. *)

Record Repository := {
  Name : string;
  Url : string;
  ExcludeDirs : list string
}.

Record Config := {
  SearchWords : list string;
  cfgExcludeDirs : list string;
  Repositories : list Repository
}.

Record GrepResult := {
  FileName : string;
  Count : Z
}.

Record Application := {
  appName : string;
  CountSum : Z;
  GrepResults : list GrepResult
}.

Record ResultFile := {
  TotalApplications : Z;
  rfSearchWords : list string;
  TotalCountSum : Z;
  Applications : list Application
}.

Global Instance GrepResult_eq_dec : EqDecision GrepResult.
Proof. solve_decision. Defined.

Definition ConfigFilePath : string := "./config.json".
Definition ResultFilePath : string := "./results.json".
Definition GrepErrorCodeNoMatches : Z := 1.

(** ** Effects: the log, external commands, panics and [log.Fatal] *)

(** A Go [error] is carried by its message; [option error] is a nilable
    error. *)
Definition error : Type := string.

Inductive event :=
| EvLog (msg : string)            (* a line written through package [log] *)
| EvTempDir                       (* [ioutil.TempDir] was called *)
| EvExec (argv : list string)     (* an external command was started *)
| EvRemoveAll (path : string).    (* [os.RemoveAll] was called *)

Global Instance event_eq_dec : EqDecision event.
Proof. solve_decision. Defined.

Inductive outcome (A : Type) :=
| Ret (a : A)                     (* the function returned [a] *)
| Panic (msg : string)            (* a run-time panic unwinds the goroutine *)
| Fatal (msg : string).           (* [log.Fatal]: the process exits at once *)
Arguments Ret {A} a.
Arguments Panic {A} msg.
Arguments Fatal {A} msg.

(** A computation yields the events it caused, oldest first, and how it
    ended. *)
Definition M (A : Type) : Type := list event * outcome A.

Global Instance M_ret : MRet M := λ A a, ([], Ret a).

Global Instance M_bind : MBind M := λ A B f m,
  match m with
  | (t, Ret a) => let '(t', o) := f a in (t ++ t', o)
  | (t, Panic msg) => (t, Panic msg)
  | (t, Fatal msg) => (t, Fatal msg)
  end.

Definition emit (e : event) : M unit := ([e], Ret tt).
Definition panic {A} (msg : string) : M A := ([], Panic msg).

(** [log.Println] and [log.Fatal]. *)
Definition Println (msg : string) : M unit := emit (EvLog msg).
Definition log_Fatal {A} (msg : string) : M A := ([EvLog msg], Fatal msg).

(** [a[i]] on a slice: out of range is a run-time panic. *)
Definition index {A} (a : list A) (i : nat) : M A :=
  match a !! i with
  | Some x => mret x
  | None => panic "index out of range"
  end.

(** [defer d()] around [body]: [d] runs when [body] returns and when it
    panics, not when the process exits under it. *)
Definition defer {A} (d : M unit) (body : M A) : M A :=
  match body with
  | (t, Ret a) =>
      let '(t', o) := d in
      (t ++ t', match o with Ret _ => Ret a | Panic m => Panic m | Fatal m => Fatal m end)
  | (t, Panic msg) =>
      let '(t', o) := d in
      (t ++ t', match o with Ret _ => Panic msg | Panic m => Panic m | Fatal m => Fatal m end)
  | (t, Fatal msg) => (t, Fatal msg)
  end.

(** What [cmd.Output()] hands back: the standard output, an
    [*exec.ExitError] with the exit code and the captured standard error,
    or another error (the command could not be started). *)
Inductive CmdResult :=
| CmdOk (stdout : string)
| CmdExit (code : Z) (stderr : string)
| CmdErr (err : error).

(** The answers of the operating system to one unit of work. *)
Record Env := {
  ioutil_TempDir : string + error;
  cmd_Run : list string → option error;
  cmd_Output : list string → CmdResult;
  os_RemoveAll : string → option error
}.

(** The answers of the machine to a whole run: the outcome of
    [loadConfig], one [Env] per unit of work (by repository position) and
    the outcome of writing the report; and, for the slice
    [cfg.ExcludeDirs] that every unit of work appends to, the room its
    backing array has beyond its length ([cap - len], as the JSON decoder
    left it) and, per unit, the units whose [append] ran between the
    unit's own [append] and the moment it read its slice, oldest
    first. *)
Record World := {
  os_loadConfig : Config + error;
  unit_env : nat → Env;
  ioutil_WriteFile : string → ResultFile → option error;
  spare_ExcludeDirs : nat;
  appends_between : nat → list nat
}.

(** ** Functions the two variants share word for word *)

Definition newline : string := String "010"%char EmptyString.

Definition sumTotalCountForGrepResults (grs : list GrepResult) : Z :=
  fold_left (λ result gr, int_add result (Count gr)) grs 0.

Definition calculateTotalCountSum (rf : ResultFile) : Z :=
  fold_left (λ result app, int_add result (CountSum app)) (Applications rf) 0.

Definition searchWordsStr (searchWords : list string) : list string :=
  fold_left (λ result word, result ++ ["--regexp=" +:+ word]) searchWords [].

Definition grepExcludeDirStr (excludeDirs : list string) : list string :=
  fold_left (λ result dir, result ++ ["--exclude-dir=" +:+ dir]) excludeDirs [].

(** [len(cleanName) >= 1] holds for every slice [Split] returns here, so
    the element at position 1 is read whenever the function is called. *)
Definition removeBasePath (path basePath : string) : M string :=
  let cleanName := Split path (basePath +:+ "/") in
  if decide (1 ≤ length cleanName)%nat then index cleanName 1
  else mret "".

(** The closure [removeDir] that [cloneRepo] builds for [dir]. *)
Definition removeDir (env : Env) (dir : string) : M unit :=
  emit (EvRemoveAll dir);;
  match os_RemoveAll env dir with
  | Some err => Println ("unable to remove dir:  " +:+ err)
  | None => mret tt
  end.

(** [cloneRepo]: the closure is [None] for Go's nil function value. *)
Definition cloneRepo (env : Env) (r : Repository)
  : M (string * option (M unit) * option error) :=
  emit EvTempDir;;
  match ioutil_TempDir env with
  | inr err => mret ("", None, Some err)
  | inl dir =>
      let argv := ["git"; "clone"; Url r; dir] in
      Println ("running command: " +:+ Join argv " ");;
      emit (EvExec argv);;
      match cmd_Run env argv with
      | Some err =>
          removeDir env dir;;
          log_Fatal ("unable to git clone " +:+ Name r +:+ err)
      | None => mret (dir, Some (removeDir env dir), None)
      end
  end.

Definition writeResult (w : World) (fileName : string) (data : ResultFile)
  : option error :=
  ioutil_WriteFile w fileName data.

(** ** The shared slice of exclude dirs *)

(** [append(s, xs...)] where [tail] is what the backing array of [s]
    holds beyond [len(s)]: when [xs] fits, it is written there and the
    slice returned is a view of the same array; otherwise the array is
    left alone and the slice returned has an array of its own. *)
Definition append_writes (tail xs : list string) : list string :=
  if decide (length xs ≤ length tail)%nat then xs ++ drop (length xs) tail
  else tail.

(** What the slice returned by that [append] holds beyond [len(s)], read
    when the shared array holds [tail]. *)
Definition append_reads (tail xs : list string) : list string :=
  if decide (length xs ≤ length tail)%nat then take (length xs) tail
  else xs.

(** [append(cfg.ExcludeDirs, cfg.Repositories[index].ExcludeDirs...)] as
    the unit of work at position [i] reads it when it assembles its
    search command: every unit appends to the one slice
    [cfg.ExcludeDirs], so with room in its backing array the appends of
    other units that ran in between have overwritten what this unit
    wrote.  Each [append] and the reading of the slice are taken as one
    step. *)
Definition appendExcludeDirs (w : World) (cfg : Config) (i : nat)
    (own : list string) : list string :=
  let tail := append_writes (replicate (spare_ExcludeDirs w) "") own in
  let tail :=
    fold_left
      (λ tail j,
         match Repositories cfg !! j with
         | Some r => append_writes tail (ExcludeDirs r)
         | None => tail
         end)
      (appends_between w i) tail in
  cfgExcludeDirs cfg ++ append_reads tail own.

(** The slice [make([]Application, n)] holds zero values. *)
Definition zeroApplication : Application :=
  {| appName := ""; CountSum := 0; GrepResults := [] |}.

(** ** The variant of [main.go]: one output line per match *)

Module LineMode.
Section Runtime.
(** Two choices Go leaves to the run time: the order in which [range]
    visits a map, and the permutation [sort.Slice] produces. *)
Variable rangeMap : gmap string Z → list (string * Z).
Variable sort_Slice :
  list Application → (Application → Application → bool) → list Application.

Definition splitOutputLine (grepLine : string) : string * string :=
  match Split grepLine ":" with
  | [path; searchWord] => (path, searchWord)
  | _ => ("", "")
  end.

(** The first loop of [parseGrepOutput]. *)
Fixpoint countLines (lines : list string) (basePath : string)
    (pathCounts : gmap string Z) : M (gmap string Z) :=
  match lines with
  | [] => mret pathCounts
  | line :: rest =>
      let '(path, searchWord) := splitOutputLine line in
      if decide (path ≠ "" ∧ searchWord ≠ "") then
        name ← removeBasePath path basePath;
        countLines rest basePath
          (<[name := int_add (default 0 (pathCounts !! name)) 1]> pathCounts)
      else countLines rest basePath pathCounts
  end.

Definition parseGrepOutput (out basePath : string) : M (list GrepResult) :=
  pathCounts ← countLines (Split out newline) basePath ∅;
  mret (fold_left
          (λ results '(path, count),
             results ++ [{| FileName := path; Count := count |}])
          (rangeMap pathCounts) []).

Definition grep (env : Env) (path : string) (searchWords excludeDirs : list string)
  : M (list GrepResult * option error) :=
  let args := grepExcludeDirStr excludeDirs in
  let args := args ++ searchWordsStr searchWords in
  let args := args ++ ["--recursive"; "--ignore-case"; "--only-matching"; path] in
  let argv := "grep" :: args in
  Println ("running command: " +:+ Join argv " ");;
  emit (EvExec argv);;
  match cmd_Output env argv with
  | CmdExit code stderr =>
      if decide (code = GrepErrorCodeNoMatches) then mret ([], None)
      else mret ([], Some ("unable to execute grep command: " +:+ stderr))
  | CmdErr err => mret ([], Some ("unable to execute grep command: " +:+ err))
  | CmdOk grepOut =>
      results ← parseGrepOutput grepOut path;
      mret (results, None)
  end.

Definition analyzeRepo (env : Env) (r : Repository)
    (searchWords excludeDirs : list string)
  : M (list GrepResult * option error) :=
  '(path, removeDir, err) ← cloneRepo env r;
  match err, removeDir with
  | None, Some removeDir =>
      defer removeDir
        ('(result, err) ← grep env path searchWords excludeDirs;
         match err with
         | Some e => mret ([], Some e)
         | None => mret (result, None)
         end)
  | _, _ => mret ([], err)
  end.

Definition sortOnAppCountSumDesc (result : ResultFile) : ResultFile :=
  {| TotalApplications := TotalApplications result;
     rfSearchWords := rfSearchWords result;
     TotalCountSum := TotalCountSum result;
     Applications :=
       sort_Slice (Applications result)
         (λ a b, bool_decide (CountSum a > CountSum b)) |}.

(** The body of the goroutine started for the repository at position
    [i]. *)
Definition unitOfWork (w : World) (cfg : Config) (repo : Repository) (i : nat)
  : M Application :=
  at_i ← index (Repositories cfg) i;
  '(result, err) ← analyzeRepo (unit_env w i) repo (SearchWords cfg)
                      (appendExcludeDirs w cfg i (ExcludeDirs at_i));
  match err with
  | Some e => log_Fatal ("failed on repo '" +:+ Name repo +:+ "': " +:+ e)
  | None =>
      mret {| appName := Name repo;
              CountSum := sumTotalCountForGrepResults result;
              GrepResults := result |}
  end.

(** The slots as [main] finds them after [wg.Wait()].  The units of work
    write disjoint slots; what they share besides is the slice of
    exclude dirs, whose interleaving [appendExcludeDirs] takes from the
    [World].  So [completion] lists, in the order in which they ended,
    the units that had run to their end by then.  A unit on the list
    that panics or exits stops the process before the report is written.
    A unit left off the list leaves its slot at the zero value: this is
    the run in which the last unit to end panicked and its deferred
    [wg.Done()] let [wg.Wait()] return before the process stopped. *)
Fixpoint runUnits (w : World) (cfg : Config) (completion : list nat)
    (slots : list Application) : M (list Application) :=
  match completion with
  | [] => mret slots
  | i :: rest =>
      match Repositories cfg !! i with
      | Some repo =>
          app ← unitOfWork w cfg repo i;
          runUnits w cfg rest (<[i := app]> slots)
      | None => runUnits w cfg rest slots
      end
  end.

(** [main]; the value returned is the report handed to [writeResult]
    when the write succeeded. *)
Definition main (w : World) (completion : list nat) : M ResultFile :=
  match os_loadConfig w with
  | inr err => log_Fatal err
  | inl cfg =>
      let n := length (Repositories cfg) in
      apps ← runUnits w cfg completion (replicate n zeroApplication);
      let results :=
        {| TotalApplications := Z.of_nat n;
           rfSearchWords := SearchWords cfg;
           TotalCountSum := 0;
           Applications := apps |} in
      let results :=
        {| TotalApplications := TotalApplications results;
           rfSearchWords := rfSearchWords results;
           TotalCountSum := calculateTotalCountSum results;
           Applications := Applications results |} in
      let report := sortOnAppCountSumDesc results in
      match writeResult w ResultFilePath report with
      | Some err => log_Fatal ("unable to save result: %w" +:+ err)
      | None => mret report
      end
  end.
End Runtime.
End LineMode.

(** ** The near-duplicate variant: one output line per file, with its count *)

Module CountMode.
Definition isNoMatches (count : string) : bool := bool_decide (count = "0").

(** The loop of [parseGrepOutput]; [results] is the slice built so far.
    The second field is read only when the first one is not empty. *)
Fixpoint parseLines (lines : list string) (pathGrepped : string)
    (results : list GrepResult) : M (list GrepResult) :=
  match lines with
  | [] => mret results
  | res :: rest =>
      let grStr := Split res ":" in
      field0 ← index grStr 0;
      if decide (field0 = "") then parseLines rest pathGrepped results
      else
        field1 ← index grStr 1;
        if decide (field1 = "") then parseLines rest pathGrepped results
        else if isNoMatches field1 then parseLines rest pathGrepped results
        else
          match Atoi field1 with
          | inr err => Println err;; mret []
          | inl count =>
              name ← removeBasePath field0 pathGrepped;
              parseLines rest pathGrepped
                (results ++ [{| FileName := name; Count := count |}])
          end
  end.

Definition parseGrepOutput (out pathGrepped : string) : M (list GrepResult) :=
  parseLines (Split out newline) pathGrepped [].

Definition grep (env : Env) (path : string) (searchWords excludeDirs : list string)
  : M (list GrepResult * option error) :=
  let args := grepExcludeDirStr excludeDirs in
  let args := args ++ searchWordsStr searchWords in
  let args := args ++ ["--recursive"; "--ignore-case"; "--count"; path] in
  let argv := "grep" :: args in
  Println ("running command: " +:+ Join argv " ");;
  emit (EvExec argv);;
  match cmd_Output env argv with
  | CmdExit code stderr =>
      if decide (code = GrepErrorCodeNoMatches) then mret ([], None)
      else mret ([], Some ("unable to execute grep command: " +:+ stderr))
  | CmdErr err => mret ([], Some ("unable to execute grep command: " +:+ err))
  | CmdOk grepOut =>
      results ← parseGrepOutput grepOut path;
      mret (results, None)
  end.

Definition analyzeRepo (env : Env) (r : Repository)
    (searchWords excludeDirs : list string)
  : M (list GrepResult * option error) :=
  '(path, removeDir, err) ← cloneRepo env r;
  match err, removeDir with
  | None, Some removeDir =>
      defer removeDir
        ('(result, err) ← grep env path searchWords excludeDirs;
         match err with
         | Some e => mret ([], Some e)
         | None => mret (result, None)
         end)
  | _, _ => mret ([], err)
  end.

Definition unitOfWork (w : World) (cfg : Config) (repo : Repository) (i : nat)
  : M Application :=
  at_i ← index (Repositories cfg) i;
  '(result, err) ← analyzeRepo (unit_env w i) repo (SearchWords cfg)
                      (appendExcludeDirs w cfg i (ExcludeDirs at_i));
  match err with
  | Some e => log_Fatal ("failed on repo '" +:+ Name repo +:+ "': " +:+ e)
  | None =>
      mret {| appName := Name repo;
              CountSum := sumTotalCountForGrepResults result;
              GrepResults := result |}
  end.

(** As in the other variant: [completion] lists the units that had run
    to their end when [wg.Wait()] returned. *)
Fixpoint runUnits (w : World) (cfg : Config) (completion : list nat)
    (slots : list Application) : M (list Application) :=
  match completion with
  | [] => mret slots
  | i :: rest =>
      match Repositories cfg !! i with
      | Some repo =>
          app ← unitOfWork w cfg repo i;
          runUnits w cfg rest (<[i := app]> slots)
      | None => runUnits w cfg rest slots
      end
  end.

(** This [main] writes the slots as they are: it has no sorting step. *)
Definition main (w : World) (completion : list nat) : M ResultFile :=
  match os_loadConfig w with
  | inr err => log_Fatal err
  | inl cfg =>
      let n := length (Repositories cfg) in
      apps ← runUnits w cfg completion (replicate n zeroApplication);
      let results :=
        {| TotalApplications := Z.of_nat n;
           rfSearchWords := SearchWords cfg;
           TotalCountSum := 0;
           Applications := apps |} in
      let results :=
        {| TotalApplications := TotalApplications results;
           rfSearchWords := rfSearchWords results;
           TotalCountSum := calculateTotalCountSum results;
           Applications := Applications results |} in
      match writeResult w ResultFilePath results with
      | Some err => log_Fatal ("unable to save result: %w" +:+ err)
      | None => mret results
      end
  end.
End CountMode.

(** ** Vocabulary of the statements *)

(** The guard of the counting loop of [LineMode.parseGrepOutput]. *)
Definition counted (line : string) : bool :=
  let '(path, searchWord) := LineMode.splitOutputLine line in
  bool_decide (path ≠ "" ∧ searchWord ≠ "").

(** A line [path:token] with a single colon and two non-empty fields. *)
Definition matchLine (line path token : string) : Prop :=
  line = path +:+ ":" +:+ token ∧ path ≠ "" ∧ token ≠ "" ∧
  Contains path ":" = false ∧ Contains token ":" = false.

(** The file name a line is counted for, when it is counted and
    [removeBasePath] returns. *)
Definition lineName (basePath line : string) : option string :=
  let '(path, _) := LineMode.splitOutputLine line in
  if counted line then
    match removeBasePath path basePath with
    | (_, Ret name) => Some name
    | _ => None
    end
  else None.

(** The words of the specification for the line format: the path is what
    precedes the first colon of the line, the token is all that follows
    it, and a line counts when both are non-empty. *)
Definition spec_splitFirstColon (line : string) : option (string * string) :=
  match Index line ":" with
  | Some m => Some (slice_to m line, slice_from (m + 1) line)
  | None => None
  end.

Definition spec_counted (line : string) : bool :=
  match spec_splitFirstColon line with
  | Some (path, token) => bool_decide (path ≠ "" ∧ token ≠ "")
  | None => false
  end.

(** The command line [grep] of the line variant assembles, and the one
    [cloneRepo] assembles. *)
Definition lineGrepArgv (path : string) (searchWords excludeDirs : list string)
  : list string :=
  "grep" :: (grepExcludeDirStr excludeDirs ++ searchWordsStr searchWords)
              ++ ["--recursive"; "--ignore-case"; "--only-matching"; path].

Definition gitCloneArgv (r : Repository) (dir : string) : list string :=
  ["git"; "clone"; Url r; dir].

(** An event that starts the search command. *)
Definition isSearch (e : event) : bool :=
  match e with
  | EvExec (cmd :: _) => bool_decide (cmd = "grep")
  | _ => false
  end.

Definition isLog (e : event) : bool :=
  match e with EvLog _ => true | _ => false end.

(** The mathematical sum of a list of integers, and the same sum as an
    [int]. *)
Definition Zsum (l : list Z) : Z := foldr Z.add 0 l.
Definition int_sum (l : list Z) : Z := wrap (Zsum l).

(** What [sort.Slice] asks of its [less] function: a strict weak
    ordering. *)
Definition StrictWeakOrder {A} (less : A → A → bool) : Prop :=
  (∀ x, less x x = false) ∧
  (∀ x y z, less x y = true → less y z = true → less x z = true) ∧
  (∀ x y z, less x y = false → less y z = false → less x z = false).

(** What [sort.SliceIsSorted] checks: no element is less than the one
    before it. *)
Definition SliceIsSorted {A} (less : A → A → bool) (l : list A) : Prop :=
  Sorted (λ a b, less b a = false) l.

(** One admissible behaviour of [sort.Slice]. *)
Definition mergeSortSlice {A} (l : list A) (less : A → A → bool) : list A :=
  @merge_sort A (λ a b, less b a = false) (λ a b, decide (less b a = false)) l.

(** A machine on which every call succeeds and the search prints
    [grepResult]. *)
Definition exampleEnv (grepResult : CmdResult) : Env :=
  {| ioutil_TempDir := inl "/tmp/clone1";
     cmd_Run := λ _, None;
     cmd_Output := λ _, grepResult;
     os_RemoveAll := λ _, None |}.

(** A run over two repositories with two and four matches. *)
Definition exampleConfig : Config :=
  {| SearchWords := ["fell"];
     cfgExcludeDirs := [".git"];
     Repositories :=
       [ {| Name := "first"; Url := "https://example.org/first.git"; ExcludeDirs := [] |};
         {| Name := "second"; Url := "https://example.org/second.git";
            ExcludeDirs := ["vendor"] |} ] |}.

Definition exampleOutput (i : nat) : string :=
  match i with
  | O => Join ["/tmp/clone1/a.go:fell"; "/tmp/clone1/b.go:Fell"; ""] newline
  | _ => Join ["/tmp/clone1/x.go:fell"; "/tmp/clone1/x.go:fell";
               "/tmp/clone1/y.go:FELL"; "/tmp/clone1/z.go:fell"; ""] newline
  end.

Definition exampleWorld : World :=
  {| os_loadConfig := inl exampleConfig;
     unit_env := λ i, exampleEnv (CmdOk (exampleOutput i));
     ioutil_WriteFile := λ _ _, None;
     spare_ExcludeDirs := 1;
     appends_between := λ _, [] |}.

(** The command line [grep] of the count variant assembles. *)
Definition countGrepArgv (path : string) (searchWords excludeDirs : list string)
  : list string :=
  "grep" :: (grepExcludeDirStr excludeDirs ++ searchWordsStr searchWords)
              ++ ["--recursive"; "--ignore-case"; "--count"; path].

(** The count field of a line of the count variant: the second of its
    colon-separated fields. *)
Definition countField (line : string) : option string :=
  Split line ":" !! 1%nat.

(** A decimal numeral: an optional sign and at least one digit. *)
Definition isDigit (c : ascii) : bool :=
  match digit_value c with Some _ => true | None => false end.

Fixpoint allDigits (s : string) : bool :=
  match s with
  | EmptyString => true
  | String c s' => isDigit c && allDigits s'
  end.

Definition decimalNumeral (s : string) : bool :=
  let body :=
    match s with
    | String "-"%char rest => rest
    | String "+"%char rest => rest
    | _ => s
    end in
  match body with
  | EmptyString => false
  | String _ _ => allDigits body
  end.

(** A line of [grep --count] output for the directory [pathGrepped]:
    [path:count] with one colon and a path under the directory; the text
    after the last newline is the empty line. *)
Definition countModeLine (pathGrepped line : string) : Prop :=
  line = "" ∨
  ∃ path count,
    line = path +:+ ":" +:+ count ∧
    Contains path ":" = false ∧ Contains count ":" = false ∧
    Contains path (pathGrepped +:+ "/") = true.

(** A line whose count field is not empty and not a decimal numeral. *)
Definition badCount (line : string) : Prop :=
  ∃ count, countField line = Some count ∧ count ≠ "" ∧ decimalNumeral count = false.

(** The path field of a line of the count variant: the first of its
    colon-separated fields. *)
Definition pathField (line : string) : option string :=
  Split line ":" !! 0%nat.

(** A line the loop of the count variant gets past without a panic: the
    empty line, or a line with a colon whose path field contains
    [pathGrepped/] unless the loop does not ask for its name (the path
    field or the count field is empty, or the count field is the text
    ["0"] or is rejected by [Atoi]). *)
Definition passesWithoutPanic (pathGrepped line : string) : Prop :=
  line = "" ∨
  ∃ path count,
    pathField line = Some path ∧ countField line = Some count ∧
    (path = "" ∨ count = "" ∨ count = "0" ∨ (∃ err, Atoi count = inr err) ∨
     Contains path (pathGrepped +:+ "/") = true).

(** Count output whose second line names a file with a colon in its
    name, so that the count field of the line is no numeral. *)
Definition exampleCountOutput : string :=
  Join ["/tmp/clone1/a.go:3"; "/tmp/clone1/b:c.go:5"; "/tmp/clone1/d.go:12"; ""] newline.

(** A line of the count variant that yields a result: it has a count
    field that is neither empty nor the text ["0"]. *)
Definition emitsCount (line : string) : bool :=
  match countField line with
  | Some count => bool_decide (count ≠ "" ∧ count ≠ "0")
  | None => false
  end.

(** The example run for the count variant: two and four matches. *)
Definition exampleCountWorld : World :=
  {| os_loadConfig := inl exampleConfig;
     unit_env := λ i,
       exampleEnv (CmdOk (match i with
                          | O => "/tmp/clone1/a.go:2"
                          | _ => "/tmp/clone1/x.go:4"
                          end));
     ioutil_WriteFile := λ _ _, None;
     spare_ExcludeDirs := 1;
     appends_between := λ _, [] |}.

(** Count output with a zero count on its second line. *)
Definition exampleZeroCountOutput : string :=
  Join ["/tmp/clone1/a.go:3"; "/tmp/clone1/b.go:0"; "/tmp/clone1/c.go:12"; ""] newline.

(** The example machine, except that the search in the second
    repository exits with status 2. *)
Definition exampleFailingWorld : World :=
  {| os_loadConfig := inl exampleConfig;
     unit_env := λ i,
       exampleEnv (match i with
                   | O => CmdOk (exampleOutput 0)
                   | _ => CmdExit 2 "grep: Unmatched ["
                   end);
     ioutil_WriteFile := λ _ _, None;
     spare_ExcludeDirs := 1;
     appends_between := λ _, [] |}.

(** A run in which the slice of exclude dirs has room for one more
    element and the second unit of work appends between the append of
    the first unit and its reading of the slice. *)
Definition exampleSharedConfig : Config :=
  {| SearchWords := ["fell"];
     cfgExcludeDirs := [".git"];
     Repositories :=
       [ {| Name := "first"; Url := "https://example.org/first.git";
            ExcludeDirs := ["y"] |};
         {| Name := "second"; Url := "https://example.org/second.git";
            ExcludeDirs := ["x"] |} ] |}.

Definition exampleSharedWorld : World :=
  {| os_loadConfig := inl exampleSharedConfig;
     unit_env := λ i, exampleEnv (CmdOk (exampleOutput i));
     ioutil_WriteFile := λ _ _, None;
     spare_ExcludeDirs := 1;
     appends_between := λ i, match i with O => [1%nat] | _ => [] end |}.

(** The example of the test file. *)
Definition testInput : list string :=
  [ "repository-words-grepper/config.json:fell";
    "repository-words-grepper/go.mod:fell";
    "repository-words-grepper/results.json:fell";
    "repository-words-grepper/results.json:fell";
    "repository-words-grepper/results.json:FELL";
    "repository-words-grepper/test.txt:FELL" ].

(** The result built from one entry of the map of counts. *)
Definition mkGrepResult (kv : string * Z) : GrepResult :=
  {| FileName := kv.1; Count := kv.2 |}.

(** * Properties *)

(** ** Integers *)

Lemma wrap_in_int z : in_int z → wrap z = z.
Proof.
  unfold in_int, MinInt, MaxInt, wrap. intros Hz.
  rewrite Z.mod_small; lia.
Qed.

Lemma wrap_add_l a b : wrap (wrap a + b) = wrap (a + b).
Proof.
  unfold wrap.
  replace ((a + 2 ^ 63) `mod` 2 ^ 64 - 2 ^ 63 + b + 2 ^ 63)
    with ((a + 2 ^ 63) `mod` 2 ^ 64 + b) by lia.
  rewrite Zplus_mod_idemp_l. do 2 f_equal. lia.
Qed.

Lemma wrap_range z : in_int (wrap z).
Proof.
  unfold in_int, MinInt, MaxInt, wrap.
  pose proof (Z.mod_pos_bound (z + 2 ^ 63) (2 ^ 64)). lia.
Qed.

(** ** Strings *)

Local Arguments String.append !_ _ / : simpl nomatch.
Local Arguments Split : simpl never.

Lemma length_app_str a b :
  String.length (a +:+ b) = (String.length a + String.length b)%nat.
Proof. induction a as [|c a IH]; simpl; [done | by rewrite IH]. Qed.

Lemma app_str_assoc a b c : (a +:+ b) +:+ c = a +:+ b +:+ c.
Proof. induction a as [|x a IH]; simpl; [done | by rewrite IH]. Qed.

Lemma app_str_nil_r a : a +:+ "" = a.
Proof. induction a as [|x a IH]; simpl; [done | by rewrite IH]. Qed.

Lemma slice_to_app a b : slice_to (String.length a) (a +:+ b) = a.
Proof. induction a as [|x a IH]; simpl; [by destruct b | by rewrite IH]. Qed.

Lemma slice_from_app a b : slice_from (String.length a) (a +:+ b) = b.
Proof. induction a as [|x a IH]; simpl; done. Qed.

Lemma slice_to_from n s : slice_to n s +:+ slice_from n s = s.
Proof.
  revert s; induction n as [|n IH]; intros [|c s]; simpl; try done.
  by rewrite IH.
Qed.

Lemma slice_from_add n m s : slice_from (n + m) s = slice_from m (slice_from n s).
Proof.
  revert s; induction n as [|n IH]; intros s; simpl; [done|].
  destruct s as [|c s]; [by destruct m | apply IH].
Qed.

Lemma slice_from_length n s :
  (n ≤ String.length s)%nat →
  String.length (slice_from n s) = (String.length s - n)%nat.
Proof.
  revert s; induction n as [|n IH]; intros [|c s]; simpl; intros; try lia.
  apply IH; lia.
Qed.

Lemma HasPrefix_spec s p : HasPrefix s p = true ↔ ∃ t, s = p +:+ t.
Proof.
  revert s; induction p as [|c p IH]; intros s; simpl.
  - split; [intros _; by exists s | done].
  - destruct s as [|d s].
    + split; [done | by intros [t ?]].
    + case_decide as Hcd.
      * subst d. rewrite IH. split; intros [t Ht]; exists t; congruence.
      * split; [done | intros [t Ht]; congruence].
Qed.

Lemma HasPrefix_app p t : HasPrefix (p +:+ t) p = true.
Proof. apply HasPrefix_spec; eauto. Qed.

(** [Index] finds an instance of [substr], and it is the first one. *)
Lemma Index_Some_split s sep m :
  Index s sep = Some m →
  s = slice_to m s +:+ sep +:+ slice_from (m + String.length sep) s.
Proof.
  revert m; induction s as [|c s IH]; intros m; simpl.
  - destruct (HasPrefix "" sep) eqn:Hp; [|done].
    intros [= <-]. apply HasPrefix_spec in Hp as [t Ht].
    destruct sep; [done | discriminate].
  - destruct (HasPrefix (String c s) sep) eqn:Hp.
    + intros [= <-]. apply HasPrefix_spec in Hp as [t Ht].
      simpl. rewrite Ht at 1. f_equal.
      by rewrite Ht, slice_from_app.
    + destruct (Index s sep) as [k|] eqn:Hk; [|done].
      intros [= <-]. simpl. f_equal. by apply IH.
Qed.

Lemma Index_None s sep a b : Index s sep = None → s ≠ a +:+ sep +:+ b.
Proof.
  revert a; induction s as [|c s IH]; intros a; simpl.
  - destruct (HasPrefix "" sep) eqn:Hp; [done|].
    intros _ Heq. destruct a; [|done]. simpl in Heq.
    destruct sep; [done | discriminate].
  - destruct (HasPrefix (String c s) sep) eqn:Hp; [done|].
    destruct (Index s sep) eqn:Hk; [done|]. intros _ Heq.
    destruct a as [|x a]; simpl in Heq.
    + rewrite Heq, HasPrefix_app in Hp. done.
    + injection Heq as -> Heq. by eapply IH.
Qed.

Lemma Contains_spec s sep :
  Contains s sep = true ↔ ∃ a b, s = a +:+ sep +:+ b.
Proof.
  unfold Contains. destruct (Index s sep) as [m|] eqn:Hi.
  - split; [|done]. intros _. apply Index_Some_split in Hi. eauto.
  - split; [done|]. intros (a & b & Hab). by eapply Index_None in Hi.
Qed.

Lemma HasPrefix_length s p :
  HasPrefix s p = true → (String.length p ≤ String.length s)%nat.
Proof.
  intros [t ->]%HasPrefix_spec. rewrite length_app_str. lia.
Qed.

Lemma Index_Some_bound s sep m :
  Index s sep = Some m → (m + String.length sep ≤ String.length s)%nat.
Proof.
  revert m; induction s as [|c s IH]; intros m; simpl.
  - destruct (HasPrefix "" sep) eqn:Hp; [|done].
    intros [= <-]. by apply HasPrefix_length in Hp.
  - destruct (HasPrefix (String c s) sep) eqn:Hp.
    + intros [= <-]. by apply HasPrefix_length in Hp.
    + destruct (Index s sep) as [k|] eqn:Hk; [|done].
      intros [= <-]. specialize (IH k eq_refl). lia.
Qed.

(** The bound of [genSplit] does not matter once it reaches the length of
    the string. *)
Lemma genSplit_fuel n s c sep :
  (String.length s ≤ n)%nat →
  genSplit n s (String c sep) = genSplit (String.length s) s (String c sep).
Proof.
  revert s; induction (lt_wf n) as [n _ IH]; intros s Hn.
  destruct n as [|n].
  { destruct s; [done | simpl in Hn; lia]. }
  simpl. destruct (Index s (String c sep)) as [m|] eqn:Hi.
  - pose proof (Index_Some_bound _ _ _ Hi) as Hb. cbn [String.length] in Hb.
    destruct (String.length s) as [|k] eqn:Hk; [lia|].
    cbn [genSplit]. rewrite Hi. f_equal.
    set (s' := slice_from _ s).
    assert (String.length s' = (String.length s - (m + S (String.length sep)))%nat) as Hl.
    { apply slice_from_length. cbn [String.length]. lia. }
    rewrite (IH n) by lia. rewrite (IH k) by lia. done.
  - destruct (String.length s) as [|k] eqn:Hk; cbn [genSplit]; by rewrite ?Hi.
Qed.

Lemma Split_no_sep s c sep :
  Index s (String c sep) = None → Split s (String c sep) = [s].
Proof.
  intros Hi. unfold Split. destruct (String.length s); cbn [genSplit]; by rewrite ?Hi.
Qed.

Lemma Split_cons s c sep m :
  Index s (String c sep) = Some m →
  Split s (String c sep) =
    slice_to m s :: Split (slice_from (m + String.length (String c sep)) s) (String c sep).
Proof.
  intros Hi. unfold Split.
  pose proof (Index_Some_bound _ _ _ Hi) as Hb.
  destruct (String.length s) as [|k] eqn:Hk; [cbn [String.length] in Hb; lia|].
  cbn [genSplit]. rewrite Hi. f_equal. apply genSplit_fuel.
  rewrite slice_from_length by lia. cbn [String.length] in *. lia.
Qed.

Lemma Split_length_ge_1 s sep : sep ≠ "" → (1 ≤ length (Split s sep))%nat.
Proof.
  destruct sep as [|c sep]; [done|]. intros _. unfold Split.
  destruct (String.length s); cbn [genSplit]; [simpl; lia|].
  destruct (Index s _); simpl; lia.
Qed.

Lemma slice_to_length n s :
  (n ≤ String.length s)%nat → String.length (slice_to n s) = n.
Proof.
  revert s; induction n as [|n IH]; intros [|c s]; simpl; intros; try lia.
  rewrite IH; lia.
Qed.

Lemma Index_first s sep m a b :
  Index s sep = Some m → s = a +:+ sep +:+ b → (m ≤ String.length a)%nat.
Proof.
  revert m a; induction s as [|c s IH]; intros m a; simpl.
  - destruct (HasPrefix "" sep); [|done]. intros [= <-] _. lia.
  - destruct (HasPrefix (String c s) sep) eqn:Hp.
    + intros [= <-] _. lia.
    + destruct (Index s sep) as [k|] eqn:Hk; [|done].
      intros [= <-] Heq. destruct a as [|x a]; simpl in Heq.
      * rewrite Heq, HasPrefix_app in Hp. done.
      * injection Heq as -> Heq. simpl. specialize (IH k a eq_refl Heq). lia.
Qed.

(** The text before the first instance of [sep] holds no instance of it. *)
Lemma Index_slice_to_None s c sep m :
  Index s (String c sep) = Some m → Index (slice_to m s) (String c sep) = None.
Proof.
  intros Hi. destruct (Index (slice_to m s) _) as [k|] eqn:Hk; [|done].
  pose proof (Index_Some_bound _ _ _ Hi) as Hb.
  pose proof (Index_Some_bound _ _ _ Hk) as Hbk.
  rewrite slice_to_length in Hbk by lia.
  apply Index_Some_split in Hk.
  pose proof (Index_Some_split _ _ _ Hi) as Hs.
  rewrite Hk, !app_str_assoc in Hs.
  apply (Index_first _ _ _ _ _ Hi) in Hs.
  assert (String.length (slice_to k (slice_to m s)) ≤ k)%nat.
  { generalize (slice_to m s). clear. induction k as [|k IH]; intros [|c s]; simpl; try lia.
    specialize (IH s). lia. }
  cbn [String.length] in *. lia.
Qed.

Lemma Index_char_app a c b :
  Index a (String c "") = None →
  Index (a +:+ String c b) (String c "") = Some (String.length a).
Proof.
  induction a as [|x a IH]; simpl.
  - intros _. by rewrite decide_True.
  - case_decide; [done|]. destruct (Index a _) eqn:Hi; [done|].
    intros _. by rewrite IH.
Qed.

Lemma Contains_false s sep : Contains s sep = false ↔ Index s sep = None.
Proof. unfold Contains. by destruct (Index s sep). Qed.

(** ** [removeBasePath] *)

Lemma app_slash_cons basePath : ∃ c sep, basePath +:+ "/" = String c sep.
Proof. destruct basePath; simpl; eauto. Qed.

Lemma removeBasePath_outside path basePath :
  Contains path (basePath +:+ "/") = false →
  removeBasePath path basePath = panic "index out of range".
Proof.
  intros Hc%Contains_false. unfold removeBasePath.
  destruct (app_slash_cons basePath) as (c & sep & Heq). rewrite Heq in *.
  by rewrite Split_no_sep.
Qed.

Lemma removeBasePath_inside path basePath :
  Contains path (basePath +:+ "/") = true →
  ∃ name, removeBasePath path basePath = mret name.
Proof.
  unfold Contains, removeBasePath. intros Hc.
  destruct (app_slash_cons basePath) as (c & sep & Heq). rewrite Heq in *.
  destruct (Index path _) as [m|] eqn:Hi; [|done].
  rewrite (Split_cons _ _ _ _ Hi).
  set (rest := slice_from _ path).
  pose proof (Split_length_ge_1 rest (String c sep) ltac:(done)) as Hl.
  destruct (Split rest (String c sep)) as [|name tl]; [simpl in Hl; lia|].
  exists name. by rewrite decide_True by (simpl; lia).
Qed.

(** A path that starts with [basePath/] and holds no second instance of
    it loses exactly that prefix. *)
Lemma removeBasePath_prefix basePath rel :
  Contains rel (basePath +:+ "/") = false →
  removeBasePath (basePath +:+ "/" +:+ rel) basePath = mret rel.
Proof.
  intros Hc%Contains_false. unfold removeBasePath.
  rewrite <-app_str_assoc.
  destruct (app_slash_cons basePath) as (c & sep & Heq). rewrite Heq in *.
  assert (Index (String c sep +:+ rel) (String c sep) = Some O) as Hi.
  { set (s := String c sep) at 2. change (Index ?x s) with
      (if HasPrefix x s then Some O else
         match x with EmptyString => None | String _ s' => S <$> Index s' s end).
    by rewrite HasPrefix_app. }
  replace (String c sep +:+ rel) with ((String c sep) +:+ rel) by done.
  rewrite (Split_cons _ _ _ _ Hi).
  replace (0 + String.length (String c sep))%nat with (String.length (String c sep)) by done.
  rewrite slice_from_app, (Split_no_sep _ _ _ Hc). done.
Qed.

(** ** Lines of the form [path:token] *)

Lemma Split_colon_two line p t :
  Split line ":" = [p; t] ↔
  line = p +:+ ":" +:+ t ∧ Contains p ":" = false ∧ Contains t ":" = false.
Proof.
  split.
  - intros Hs. destruct (Index line ":") as [m|] eqn:Hi.
    + rewrite (Split_cons _ _ _ _ Hi) in Hs. injection Hs as Hp Ht.
      set (rest := slice_from _ line) in *.
      change (genSplit _ rest ":") with (Split rest ":") in Ht.
      destruct (Index rest ":") as [k|] eqn:Hk.
      { rewrite (Split_cons _ _ _ _ Hk) in Ht. injection Ht as _ Ht.
        change (genSplit _ ?r ":") with (Split r ":") in Ht.
        pose proof (Split_length_ge_1 (slice_from (k + 1) rest) ":"
                      ltac:(done)) as Hl.
        rewrite Ht in Hl. simpl in Hl. lia. }
      rewrite (Split_no_sep _ _ _ Hk) in Ht. injection Ht as Ht.
      split_and!.
      * pose proof (Index_Some_split _ _ _ Hi) as Heq.
        change (slice_from _ line) with rest in Heq.
        by rewrite Hp, Ht in Heq.
      * apply Contains_false. rewrite <-Hp. by apply Index_slice_to_None.
      * apply Contains_false. by rewrite <-Ht.
    + rewrite (Split_no_sep _ _ _ Hi) in Hs. done.
  - intros (-> & Hp%Contains_false & Ht%Contains_false).
    pose proof (Index_char_app p ":" t Hp) as Hi.
    change (p +:+ ":" +:+ t) with (p +:+ String ":" t).
    rewrite (Split_cons _ _ _ _ Hi).
    rewrite slice_to_app, slice_from_add, slice_from_app. simpl.
    by rewrite (Split_no_sep _ _ _ Ht).
Qed.

Lemma counted_matchLine line :
  counted line = true ↔ ∃ path token, matchLine line path token.
Proof.
  unfold counted, LineMode.splitOutputLine, matchLine. split.
  - destruct (Split line ":") as [|p [|t [|? ?]]] eqn:Hs;
      rewrite bool_decide_eq_true; intros [Hp Ht]; try done.
    apply Split_colon_two in Hs as (Heq & Hcp & Hct).
    by exists p, t.
  - intros (p & t & Heq & Hp & Ht & Hcp & Hct).
    assert (Split line ":" = [p; t]) as -> by (apply Split_colon_two; done).
    by apply bool_decide_eq_true.
Qed.

Lemma matchLine_split line path token :
  matchLine line path token → LineMode.splitOutputLine line = (path, token).
Proof.
  intros (Heq & _ & _ & Hcp & Hct). unfold LineMode.splitOutputLine.
  assert (Split line ":" = [path; token]) as -> by (apply Split_colon_two; done).
  done.
Qed.

Lemma lineName_spec basePath line P :
  lineName basePath line = Some P ↔
  ∃ path token, matchLine line path token ∧ removeBasePath path basePath = mret P.
Proof.
  unfold lineName. split.
  - destruct (counted line) eqn:Hc.
    + apply counted_matchLine in Hc as (p & t & Hm).
      rewrite (matchLine_split _ _ _ Hm). intros Hr. exists p, t. split; [done|].
      destruct (Contains p (basePath +:+ "/")) eqn:Hin.
      * apply removeBasePath_inside in Hin as [name Hn]. rewrite Hn in *.
        by simplify_eq/=.
      * apply removeBasePath_outside in Hin. rewrite Hin in Hr. done.
    + by destruct (LineMode.splitOutputLine line).
  - intros (p & t & Hm & Hr). rewrite (matchLine_split _ _ _ Hm), Hr.
    assert (counted line = true) as -> by (apply counted_matchLine; eauto).
    done.
Qed.

(** ** The monad *)

Lemma mret_bind {A B} (a : A) (f : A → M B) : (mret a ≫= f) = f a.
Proof. unfold mret, mbind, M_ret, M_bind. by destruct (f a). Qed.

Lemma panic_bind {A B} msg (f : A → M B) : (panic msg ≫= f) = panic msg.
Proof. done. Qed.

(** ** The counting loop of the line variant *)

Section CountLines.
Import LineMode.

Lemma countLines_skip line rest basePath pathCounts :
  counted line = false →
  countLines (line :: rest) basePath pathCounts = countLines rest basePath pathCounts.
Proof.
  unfold counted. cbn [countLines]. destruct (splitOutputLine line) as [p t].
  intros Hc%bool_decide_eq_false. by rewrite decide_False.
Qed.

Lemma countLines_step line rest basePath pathCounts path token :
  matchLine line path token →
  countLines (line :: rest) basePath pathCounts =
    (name ← removeBasePath path basePath;
     countLines rest basePath
       (<[name := int_add (default 0 (pathCounts !! name)) 1]> pathCounts)).
Proof.
  intros Hm. cbn [countLines]. rewrite (matchLine_split _ _ _ Hm).
  destruct Hm as (_ & ? & ? & _). by rewrite decide_True.
Qed.

Lemma lineName_not_counted basePath line :
  counted line = false → lineName basePath line = None.
Proof.
  unfold lineName. intros ->. by destruct (splitOutputLine line).
Qed.

(** Every counted line names a path under [basePath]: the loop returns,
    and the counter of a name went up by the number of lines counted
    for it. *)
Lemma countLines_lookup lines basePath pathCounts :
  (∀ line path token,
     line ∈ lines → matchLine line path token →
     Contains path (basePath +:+ "/") = true) →
  ∃ pathCounts',
    countLines lines basePath pathCounts = mret pathCounts' ∧
    ∀ P,
      pathCounts' !! P =
        match length (filter (λ line, lineName basePath line = Some P) lines) with
        | O => pathCounts !! P
        | S k => Some (wrap (default 0 (pathCounts !! P) + Z.of_nat (S k)))
        end.
Proof.
  revert pathCounts. induction lines as [|line rest IH]; intros pc Hin.
  { by exists pc. }
  destruct (counted line) eqn:Hc.
  - pose proof Hc as (path & token & Hm)%counted_matchLine.
    assert (Contains path (basePath +:+ "/") = true) as Hp.
    { eapply Hin; [left | done]. }
    apply removeBasePath_inside in Hp as [name Hname].
    rewrite (countLines_step _ _ _ _ _ _ Hm), Hname, mret_bind.
    destruct (IH (<[name := int_add (default 0 (pc !! name)) 1]> pc)) as (pc' & Hrun & Hpc').
    { intros l p t Hl. apply Hin. by right. }
    exists pc'. split; [done|]. intros P. rewrite Hpc'.
    assert (lineName basePath line = Some name) as Hln.
    { apply lineName_spec. eauto. }
    destruct (decide (name = P)) as [->|Hne].
    + rewrite filter_cons_True by done. rewrite lookup_insert_eq. cbn [length default from_option id].
      destruct (length (filter _ rest)) as [|k].
      * unfold int_add. do 2 f_equal.
      * unfold int_add. rewrite wrap_add_l. do 2 f_equal. lia.
    + rewrite filter_cons_False by congruence.
      by rewrite lookup_insert_ne.
  - rewrite countLines_skip by done.
    destruct (IH pc) as (pc' & Hrun & Hpc').
    { intros l p t Hl. apply Hin. by right. }
    exists pc'. split; [done|]. intros P. rewrite Hpc'.
    rewrite filter_cons_False; [done|].
    by rewrite lineName_not_counted.
Qed.

(** The first counted line that names a path outside [basePath] stops
    the loop with a panic. *)
Lemma countLines_outside lines basePath pathCounts :
  (∀ line path token,
     line ∈ lines → matchLine line path token →
     Contains path (basePath +:+ "/") = false) →
  (∃ line, line ∈ lines ∧ counted line = true) →
  countLines lines basePath pathCounts = panic "index out of range".
Proof.
  induction lines as [|line rest IH]; intros Hout (l & Hl & Hc).
  { by apply elem_of_nil in Hl. }
  destruct (counted line) eqn:Hcl.
  - apply counted_matchLine in Hcl as (path & token & Hm).
    rewrite (countLines_step _ _ _ _ _ _ Hm).
    rewrite removeBasePath_outside; [done|].
    eapply Hout; [left | done].
  - rewrite countLines_skip by done. apply IH.
    + intros l' p t Hl'. apply Hout. by right.
    + apply elem_of_cons in Hl as [->|Hl]; [congruence|]. eauto.
Qed.
End CountLines.

(** ** [parseGrepOutput] of the line variant *)

Lemma range_results (l : list (string * Z)) acc :
  fold_left (λ results '(path, count),
               results ++ [{| FileName := path; Count := count |}]) l acc
  = acc ++ (mkGrepResult <$> l).
Proof.
  revert acc; induction l as [|[p c] l IH]; intros acc; simpl.
  - by rewrite app_nil_r.
  - rewrite IH. by rewrite <-app_assoc.
Qed.

Lemma filter_none {A} (P : A → Prop) `{∀ x, Decision (P x)} (l : list A) :
  (∀ x, x ∈ l → ¬ P x) → filter P l = [].
Proof.
  induction l as [|x l IH]; intros Hl; [done|].
  rewrite filter_cons_False by (apply Hl; left).
  apply IH. intros y Hy. apply Hl. by right.
Qed.

Lemma filter_name_unique (l : list (string * Z)) P v :
  NoDup l.*1 → (P, v) ∈ l →
  filter (λ r, FileName r = P) (mkGrepResult <$> l) = [{| FileName := P; Count := v |}].
Proof.
  induction l as [|[p c] l IH]; intros Hnd Hin.
  { by apply elem_of_nil in Hin. }
  rewrite fmap_cons in *. apply NoDup_cons in Hnd as [Hp Hnd].
  apply elem_of_cons in Hin as [[= <- <-]|Hin].
  - rewrite filter_cons_True by done. f_equal.
    apply filter_none. intros r Hr%list_elem_of_fmap.
    destruct Hr as ([p' c'] & -> & Hr). simpl. intros ->.
    apply Hp. apply list_elem_of_fmap. by exists (P, c').
  - rewrite filter_cons_False; [by apply IH|].
    simpl. intros ->. apply Hp, list_elem_of_fmap. by exists (P, v).
Qed.

Section LineModeParse.
Import LineMode.
Variable rangeMap : gmap string Z → list (string * Z).
Hypothesis rangeMap_perm : ∀ m, rangeMap m ≡ₚ map_to_list m.

(** C1, on the code: when every counted line of the output names a path
    that does not contain [basePath/], and some line is counted,
    [parseGrepOutput] does not return results with empty names: reading
    [cleanName[1]] panics. *)
Theorem parseGrepOutput_outside_basePath_panics out basePath :
  (∀ line path token,
     line ∈ Split out newline → matchLine line path token →
     Contains path (basePath +:+ "/") = false) →
  (∃ line, line ∈ Split out newline ∧ counted line = true) →
  parseGrepOutput rangeMap out basePath = panic "index out of range".
Proof using Type.
  intros Hout Hsome. unfold parseGrepOutput.
  by rewrite (countLines_outside _ _ _ Hout Hsome).
Qed.

(** C2, as amended: every line of the form [path:token] (one colon, both
    fields non-empty) names a path that contains [basePath/], and [P] is
    the name [removeBasePath] gives for exactly [k ≥ 1] of these lines.
    Then [parseGrepOutput] returns, no file name occurs twice in its
    results, and the one result for [P] has the count [k]. *)
Theorem parseGrepOutput_merges_counts out basePath P k :
  Z.of_nat (length (Split out newline)) ≤ MaxInt →
  (∀ line path token,
     line ∈ Split out newline → matchLine line path token →
     Contains path (basePath +:+ "/") = true) →
  length (filter (λ line, lineName basePath line = Some P) (Split out newline)) = k →
  (0 < k)%nat →
  ∃ results,
    parseGrepOutput rangeMap out basePath = mret results ∧
    NoDup (FileName <$> results) ∧
    filter (λ r, FileName r = P) results = [{| FileName := P; Count := Z.of_nat k |}].
Proof using rangeMap_perm.
  intros Hlen Hin Hk Hpos. unfold parseGrepOutput.
  destruct (countLines_lookup (Split out newline) basePath ∅ Hin) as (pc & -> & Hpc).
  rewrite mret_bind, range_results, app_nil_l.
  eexists; split; [done|]. split.
  - rewrite <-list_fmap_compose.
    change (FileName ∘ mkGrepResult) with (@fst string Z).
    rewrite rangeMap_perm. apply NoDup_fst_map_to_list.
  - apply filter_name_unique.
    + rewrite rangeMap_perm. apply NoDup_fst_map_to_list.
    + rewrite rangeMap_perm. apply elem_of_map_to_list.
      rewrite Hpc, Hk. destruct k as [|k]; [lia|].
      rewrite lookup_empty. cbn [default from_option]. f_equal.
      rewrite Z.add_0_l. apply wrap_in_int.
      pose proof (length_filter (λ line, lineName basePath line = Some P)
                    (Split out newline)) as Hle.
      unfold in_int, MinInt, MaxInt in *. lia.
Qed.
End LineModeParse.

(** C6, as amended: a line passes the guard of the counting loop exactly
    when it has one colon with a non-empty field on each side.  A line
    that does not pass it leaves the counters as they are, and so does
    every line whose path or token is empty when the line is split at
    its first colon.  A line that passes it and whose path contains
    [basePath/] raises the counter of the name [removeBasePath] gives
    for the path by one.  (A passing line whose path lacks [basePath/]
    is the subject of C1 and is left out here.) *)
Theorem counted_iff_single_colon line :
  (counted line = true ↔ ∃ path token, matchLine line path token) ∧
  (counted line = true → spec_counted line = true) ∧
  (counted line = false →
   ∀ rest basePath pathCounts,
     LineMode.countLines (line :: rest) basePath pathCounts
     = LineMode.countLines rest basePath pathCounts) ∧
  (spec_counted line = false →
   ∀ rest basePath pathCounts,
     LineMode.countLines (line :: rest) basePath pathCounts
     = LineMode.countLines rest basePath pathCounts) ∧
  (∀ path token rest basePath pathCounts,
     matchLine line path token →
     Contains path (basePath +:+ "/") = true →
     ∃ name,
       removeBasePath path basePath = mret name ∧
       LineMode.countLines (line :: rest) basePath pathCounts
       = LineMode.countLines rest basePath
           (<[name := int_add (default 0 (pathCounts !! name)) 1]> pathCounts)).
Proof.
  assert (counted line = true → spec_counted line = true) as Hspec.
  { intros (path & token & Heq & Hp & Ht & Hcp%Contains_false & _)%counted_matchLine.
    unfold spec_counted, spec_splitFirstColon. subst line.
    change (path +:+ ":" +:+ token) with (path +:+ String ":" token).
    rewrite (Index_char_app _ _ _ Hcp), slice_to_app, slice_from_add, slice_from_app.
    simpl. by apply bool_decide_eq_true. }
  split_and!.
  - apply counted_matchLine.
  - exact Hspec.
  - intros Hc rest basePath pathCounts. by apply countLines_skip.
  - intros Hc rest basePath pathCounts. apply countLines_skip.
    destruct (counted line); [|done]. by rewrite Hspec in Hc.
  - intros path token rest basePath pathCounts Hm Hin.
    destruct (removeBasePath_inside _ _ Hin) as [name Hname]. exists name.
    split; [done|].
    by rewrite (countLines_step _ _ _ _ _ _ Hm), Hname, mret_bind.
Qed.

(** Settles a statement about every [path:token] line of a literal
    output by going through its lines. *)
Ltac each_match_line :=
  let line := fresh "line" in
  let Hin := fresh "Hin" in
  let Hm := fresh "Hm" in
  intros line ? ? Hin Hm; apply matchLine_split in Hm;
  vm_compute in Hin;
  repeat (apply elem_of_cons in Hin as [->|Hin]);
  [ vm_compute in Hm; injection Hm as <- <-; reflexivity ..
  | by apply elem_of_nil in Hin ].

Lemma parseGrepOutput_outside_basePath_panics_witness :
  LineMode.parseGrepOutput map_to_list "other/file.txt:fell" "repo"
  = panic "index out of range".
Proof.
  apply (parseGrepOutput_outside_basePath_panics map_to_list "other/file.txt:fell" "repo").
  - each_match_line.
  - exists "other/file.txt:fell". split; [vm_compute; left | reflexivity].
Defined.

Lemma parseGrepOutput_merges_counts_witness :
  ∃ results,
    LineMode.parseGrepOutput map_to_list (Join testInput newline)
      "repository-words-grepper" = mret results ∧
    NoDup (FileName <$> results) ∧
    filter (λ r, FileName r = "results.json") results
    = [{| FileName := "results.json"; Count := 3 |}].
Proof.
  apply (parseGrepOutput_merges_counts map_to_list (λ m, reflexivity _)
           (Join testInput newline) "repository-words-grepper" "results.json" 3).
  - vm_compute. discriminate.
  - each_match_line.
  - reflexivity.
  - lia.
Defined.

(** C2 as stated fails: a token with a colon keeps the line from being
    counted although its path and token (split at the first colon) are
    non-empty, and a path that holds [basePath/] twice is counted under
    the text between the two instances, not under the path without its
    prefix. *)
Lemma parseGrepOutput_drops_colon_token :
  spec_splitFirstColon "r/notes.txt:http://x" = Some ("r/notes.txt", "http://x") ∧
  removeBasePath "r/notes.txt" "r" = mret "notes.txt" ∧
  LineMode.parseGrepOutput map_to_list "r/notes.txt:http://x" "r" = mret [] ∧
  LineMode.parseGrepOutput map_to_list "r/v/r/a.txt:fell" "r"
  = mret [{| FileName := "v/"; Count := 1 |}].
Proof. by vm_compute. Qed.

Lemma counted_iff_single_colon_witness :
  counted "r/a.txt:fell" = true ∧ spec_counted "r/a.txt:fell" = true ∧
  ∃ name,
    removeBasePath "r/a.txt" "r" = mret name ∧
    LineMode.countLines ["r/a.txt:fell"] "r" ∅
    = LineMode.countLines [] "r" (<[name := int_add (default 0 ((∅ : gmap string Z) !! name)) 1]> ∅).
Proof.
  split; [reflexivity|]. split.
  - apply (proj1 (proj2 (counted_iff_single_colon "r/a.txt:fell"))). reflexivity.
  - apply (proj2 (proj2 (proj2 (proj2 (counted_iff_single_colon "r/a.txt:fell"))))
             "r/a.txt" "fell" [] "r" ∅); [|reflexivity].
    split_and!; [reflexivity | discriminate | discriminate | reflexivity | reflexivity].
Defined.

(** C6 as stated fails: split at the first colon, the line below has the
    non-empty path [r/a.txt] and the non-empty token [x:y], yet it is not
    counted and yields no result. *)
Lemma first_colon_line_not_counted :
  spec_splitFirstColon "r/a.txt:x:y" = Some ("r/a.txt", "x:y") ∧
  spec_counted "r/a.txt:x:y" = true ∧
  counted "r/a.txt:x:y" = false ∧
  LineMode.parseGrepOutput map_to_list "r/a.txt:x:y" "r" = mret [].
Proof. by vm_compute. Qed.

(** ** [grep] and [analyzeRepo] of the line variant *)

Section LineModeSearch.
Import LineMode.
Variable rangeMap : gmap string Z → list (string * Z).

Lemma line_grep_unfold env path searchWords excludeDirs :
  grep rangeMap env path searchWords excludeDirs =
   (Println ("running command: " +:+ Join (lineGrepArgv path searchWords excludeDirs) " ");;
    emit (EvExec (lineGrepArgv path searchWords excludeDirs));;
    match cmd_Output env (lineGrepArgv path searchWords excludeDirs) with
    | CmdExit code stderr =>
        if decide (code = GrepErrorCodeNoMatches) then mret ([], None)
        else mret ([], Some ("unable to execute grep command: " +:+ stderr))
    | CmdErr err => mret ([], Some ("unable to execute grep command: " +:+ err))
    | CmdOk grepOut =>
        results ← parseGrepOutput rangeMap grepOut path;
        mret (results, None)
    end).
Proof. reflexivity. Qed.

(** C5: when the search command exits with status 1, [grep] returns the
    empty result and no error; when it exits with another status, [grep]
    returns an error whose text ends with what the command wrote to its
    standard error. *)
Theorem grep_exit_status env path searchWords excludeDirs code stderr :
  cmd_Output env (lineGrepArgv path searchWords excludeDirs) = CmdExit code stderr →
  (code = 1 →
   (grep rangeMap env path searchWords excludeDirs).2 = Ret ([], None)) ∧
  (code ≠ 1 →
   (grep rangeMap env path searchWords excludeDirs).2
   = Ret ([], Some ("unable to execute grep command: " +:+ stderr))).
Proof.
  intros Hout. rewrite line_grep_unfold, Hout. unfold GrepErrorCodeNoMatches.
  split; intros Hc.
  - by rewrite decide_True.
  - by rewrite decide_False.
Qed.

Lemma cloneRepo_no_tempdir env r err :
  ioutil_TempDir env = inr err →
  cloneRepo env r = ([EvTempDir], Ret ("", None, Some err)).
Proof. intros Ht. unfold cloneRepo. by rewrite Ht. Qed.

Lemma cloneRepo_clone_fails env r dir err :
  ioutil_TempDir env = inl dir →
  cmd_Run env (gitCloneArgv r dir) = Some err →
  ∃ logged,
    cloneRepo env r =
      ([EvTempDir; EvLog ("running command: " +:+ Join (gitCloneArgv r dir) " ");
        EvExec (gitCloneArgv r dir); EvRemoveAll dir] ++ logged,
       Fatal ("unable to git clone " +:+ Name r +:+ err)) ∧
    Forall (λ e, isLog e = true) logged.
Proof.
  intros Ht Hc. unfold cloneRepo, removeDir, gitCloneArgv in *.
  rewrite Ht. cbv zeta. rewrite Hc. destruct (os_RemoveAll env dir) as [e|].
  - eexists [_; _]. split; [reflexivity|]. by repeat constructor.
  - eexists [_]. split; [reflexivity|]. by repeat constructor.
Qed.

Lemma cloneRepo_ok env r dir :
  ioutil_TempDir env = inl dir →
  cmd_Run env (gitCloneArgv r dir) = None →
  cloneRepo env r =
    ([EvTempDir; EvLog ("running command: " +:+ Join (gitCloneArgv r dir) " ");
      EvExec (gitCloneArgv r dir)],
     Ret (dir, Some (removeDir env dir), None)).
Proof.
  intros Ht Hc. unfold cloneRepo, gitCloneArgv in *.
  rewrite Ht. cbv zeta. by rewrite Hc.
Qed.

Lemma removeDir_trace env dir :
  ∃ logged,
    removeDir env dir = (EvRemoveAll dir :: logged, Ret tt) ∧
    Forall (λ e, isLog e = true) logged.
Proof.
  unfold removeDir. destruct (os_RemoveAll env dir) as [e|].
  - eexists [_]. split; [reflexivity|]. by repeat constructor.
  - by exists [].
Qed.

(** The search is started, and [grep] never exits the process. *)
Lemma grep_trace env path searchWords excludeDirs :
  ∃ trace result,
    grep rangeMap env path searchWords excludeDirs = (trace, result) ∧
    Exists (λ e, isSearch e = true) trace ∧
    ∀ msg, result ≠ Fatal msg.
Proof.
  rewrite line_grep_unfold.
  assert (∀ k : M (list GrepResult * option error),
            (∀ msg, k.2 ≠ Fatal msg) →
            ∃ trace result,
              (Println ("running command: " +:+
                        Join (lineGrepArgv path searchWords excludeDirs) " ");;
               emit (EvExec (lineGrepArgv path searchWords excludeDirs));; k)
              = (trace, result) ∧
              Exists (λ e, isSearch e = true) trace ∧ ∀ msg, result ≠ Fatal msg) as Hk.
  { intros [t o] Ho. eexists _, o. split.
    - unfold Println, emit, mbind, M_bind. reflexivity.
    - split; [|exact Ho]. apply Exists_cons_tl, Exists_cons_hd. done. }
  apply Hk. destruct (cmd_Output env _) as [out|code stderr|err].
  - unfold parseGrepOutput.
    destruct (countLines (Split out newline) path ∅) as [t [pc|msg|msg]] eqn:Hc.
    + done.
    + done.
    + exfalso. revert Hc. generalize (∅ : gmap string Z).
      induction (Split out newline) as [|line rest IH]; intros pc; [done|].
      cbn [countLines]. destruct (splitOutputLine line) as [p tk].
      case_decide; [|apply IH].
      destruct (Contains p (path +:+ "/")) eqn:Hin.
      * apply removeBasePath_inside in Hin as [name ->].
        rewrite mret_bind. apply IH.
      * by rewrite (removeBasePath_outside _ _ Hin), panic_bind.
  - by case_decide.
  - done.
Qed.

Lemma isLog_not_search trace :
  Forall (λ e, isLog e = true) trace → Forall (λ e, isSearch e = false) trace.
Proof. intros Hl. eapply Forall_impl; [exact Hl|]. by intros []. Qed.

(** C8: a run of [analyzeRepo] ends in one of three ways.  When the
    temporary directory was created and the clone succeeded, the search
    is started and [os.RemoveAll] is called on the directory after it,
    however the search and the parsing ended (results, an error or a
    panic), with nothing but log lines following.  When the temporary
    directory could not be created, the error is returned and no search
    is started.  When the clone failed, the directory is removed, the
    process exits with the error and no search is started. *)
Theorem analyzeRepo_releases env r searchWords excludeDirs trace result :
  analyzeRepo rangeMap env r searchWords excludeDirs = (trace, result) →
  (∀ dir,
     ioutil_TempDir env = inl dir → cmd_Run env (gitCloneArgv r dir) = None →
     ∃ before after,
       trace = before ++ EvRemoveAll dir :: after ∧
       Exists (λ e, isSearch e = true) before ∧
       Forall (λ e, isLog e = true) after ∧
       ∀ msg, result ≠ Fatal msg) ∧
  (∀ err,
     ioutil_TempDir env = inr err →
     result = Ret ([], Some err) ∧ Forall (λ e, isSearch e = false) trace) ∧
  (∀ dir err,
     ioutil_TempDir env = inl dir → cmd_Run env (gitCloneArgv r dir) = Some err →
     result = Fatal ("unable to git clone " +:+ Name r +:+ err) ∧
     Forall (λ e, isSearch e = false) trace ∧
     EvRemoveAll dir ∈ trace).
Proof.
  intros Hrun. unfold analyzeRepo in Hrun. split_and!.
  - intros dir Ht Hc. rewrite (cloneRepo_ok _ _ _ Ht Hc) in Hrun.
    destruct (grep_trace env dir searchWords excludeDirs) as (tg & rg & Hg & Hs & Hnf).
    destruct (removeDir_trace env dir) as (logged & Hrm & Hlog).
    unfold mbind at 1, M_bind at 1 in Hrun. rewrite Hg, Hrm in Hrun.
    destruct rg as [[res [e|]]|msg|msg]; [| | |by destruct (Hnf msg)];
      cbn in Hrun; injection Hrun as <- <-;
      (eexists (_ :: _ :: _ :: tg), logged; split_and!;
       [by rewrite ?app_nil_r | by do 3 apply Exists_cons_tl | done | done]).
  - intros err Ht. rewrite (cloneRepo_no_tempdir _ _ _ Ht) in Hrun.
    cbn in Hrun. injection Hrun as <- <-. split; [done|].
    by repeat constructor.
  - intros dir err Ht Hc.
    destruct (cloneRepo_clone_fails _ r _ _ Ht Hc) as (logged & Hcl & Hlog).
    rewrite Hcl in Hrun. cbn in Hrun. injection Hrun as <- <-.
    split_and!; [done | | set_solver].
    repeat (constructor; [done|]). by apply isLog_not_search.
Qed.
End LineModeSearch.

Lemma grep_exit_status_witness :
  (LineMode.grep map_to_list (exampleEnv (CmdExit 1 "")) "/tmp/clone1" ["fell"] [".git"]).2
  = Ret ([], None) ∧
  (LineMode.grep map_to_list (exampleEnv (CmdExit 2 "grep: Unmatched [")) "/tmp/clone1"
     ["fell"] [".git"]).2
  = Ret ([], Some "unable to execute grep command: grep: Unmatched [").
Proof.
  split.
  - apply (proj1 (grep_exit_status map_to_list (exampleEnv (CmdExit 1 ""))
                    "/tmp/clone1" ["fell"] [".git"] 1 "" eq_refl)).
    reflexivity.
  - apply (proj2 (grep_exit_status map_to_list
                    (exampleEnv (CmdExit 2 "grep: Unmatched ["))
                    "/tmp/clone1" ["fell"] [".git"] 2 "grep: Unmatched [" eq_refl)).
    discriminate.
Defined.

Lemma analyzeRepo_releases_witness :
  ∃ before after,
    (LineMode.analyzeRepo map_to_list (exampleEnv (CmdOk (exampleOutput 0)))
       {| Name := "first"; Url := "https://example.org/first.git"; ExcludeDirs := [] |}
       ["fell"] [".git"]).1
    = before ++ EvRemoveAll "/tmp/clone1" :: after ∧
    Exists (λ e, isSearch e = true) before ∧
    Forall (λ e, isLog e = true) after.
Proof.
  destruct (LineMode.analyzeRepo map_to_list (exampleEnv (CmdOk (exampleOutput 0)))
              {| Name := "first"; Url := "https://example.org/first.git";
                 ExcludeDirs := [] |} ["fell"] [".git"]) as [trace result] eqn:Hrun.
  destruct (proj1 (analyzeRepo_releases map_to_list _ _ _ _ _ _ Hrun) "/tmp/clone1"
              eq_refl eq_refl) as (before & after & Htrace & Hsearch & Hlog & _).
  exists before, after. split_and!; [exact Htrace | exact Hsearch | exact Hlog].
Defined.

(** ** Sums *)

Lemma wrap_0 : wrap 0 = 0.
Proof. reflexivity. Qed.

Lemma fold_int_add {A} (f : A → Z) (l : list A) a :
  fold_left (λ result x, int_add result (f x)) l (wrap a) = wrap (a + Zsum (f <$> l)).
Proof.
  revert a; induction l as [|x l IH]; intros a; simpl.
  - by rewrite Z.add_0_r.
  - change (int_add (wrap a) (f x)) with (wrap (wrap a + f x)).
    rewrite wrap_add_l, IH. f_equal. fold (fmap f l). lia.
Qed.

Lemma sumTotalCountForGrepResults_int_sum grs :
  sumTotalCountForGrepResults grs = int_sum (Count <$> grs).
Proof.
  unfold sumTotalCountForGrepResults, int_sum.
  rewrite <-wrap_0 at 1. by rewrite fold_int_add.
Qed.

Lemma calculateTotalCountSum_int_sum rf :
  calculateTotalCountSum rf = int_sum (CountSum <$> Applications rf).
Proof.
  unfold calculateTotalCountSum, int_sum.
  rewrite <-wrap_0 at 1. by rewrite fold_int_add.
Qed.

Lemma Zsum_Permutation l1 l2 : l1 ≡ₚ l2 → Zsum l1 = Zsum l2.
Proof. induction 1; simpl; lia. Qed.

(** Where nothing overflows, the [int] sum is the mathematical one. *)
Lemma int_sum_exact l : in_int (Zsum l) → int_sum l = Zsum l.
Proof. apply wrap_in_int. Qed.

(** ** The run over all repositories *)

Section LineModeRun.
Import LineMode.
Variable rangeMap : gmap string Z → list (string * Z).
Variable sort_Slice :
  list Application → (Application → Application → bool) → list Application.
Hypothesis sort_Slice_perm : ∀ l less, sort_Slice l less ≡ₚ l.
Hypothesis sort_Slice_sorted :
  ∀ l less, StrictWeakOrder less → SliceIsSorted less (sort_Slice l less).

Lemma unitOfWork_countSum w cfg repo i t app :
  unitOfWork rangeMap w cfg repo i = (t, Ret app) →
  CountSum app = sumTotalCountForGrepResults (GrepResults app).
Proof using Type.
  unfold unitOfWork, index. destruct (Repositories cfg !! i) as [at_i|]; [|done].
  rewrite mret_bind.
  destruct (analyzeRepo _ _ _ _ _) as [ta [[res [e|]]|msg|msg]]; cbn; try done.
  by intros [= <- <-].
Qed.

(** Whatever the completion order, every slot holds either its zero
    value or what a unit of work wrote. *)
Lemma runUnits_slots (P : Application → Prop) w cfg completion slots t apps :
  (∀ repo i tu app, unitOfWork rangeMap w cfg repo i = (tu, Ret app) → P app) →
  Forall P slots →
  runUnits rangeMap w cfg completion slots = (t, Ret apps) →
  Forall P apps.
Proof using Type.
  intros Hunit. revert slots t.
  induction completion as [|i rest IH]; intros slots t Hslots; cbn [runUnits].
  { by intros [= <- <-]. }
  destruct (Repositories cfg !! i) as [repo|]; [|by apply IH].
  destruct (unitOfWork rangeMap w cfg repo i) as [tu [app|msg|msg]] eqn:Hu;
    cbn; try done.
  destruct (runUnits _ _ _ _ _) as [t' o'] eqn:Hrest. intros [= <- ->].
  eapply IH; [|exact Hrest]. apply Forall_insert; eauto.
Qed.

Lemma runUnits_no_repositories w cfg completion slots :
  Repositories cfg = [] →
  runUnits rangeMap w cfg completion slots = mret slots.
Proof using Type.
  intros Hr. induction completion as [|i rest IH]; cbn [runUnits]; [done|].
  by rewrite Hr, lookup_nil.
Qed.

(** Each unit of work writes the slot of its own repository: when the
    units have run in the order [completion], the slot of every
    position named there holds what the unit of that repository
    returned, and the other slots are untouched. *)
Lemma runUnits_by_index w cfg completion slots t apps :
  runUnits rangeMap w cfg completion slots = (t, Ret apps) →
  length apps = length slots ∧
  (∀ i, i ∉ completion → apps !! i = slots !! i) ∧
  (∀ i repo,
     i ∈ completion → Repositories cfg !! i = Some repo → (i < length slots)%nat →
     ∃ tu app, unitOfWork rangeMap w cfg repo i = (tu, Ret app) ∧ apps !! i = Some app).
Proof using Type.
  revert slots t. induction completion as [|j rest IH]; intros slots t; cbn [runUnits].
  { intros [= <- <-]. split_and!; [done | done |]. intros i repo Hi. by apply elem_of_nil in Hi. }
  destruct (Repositories cfg !! j) as [repo_j|] eqn:Hj.
  - destruct (unitOfWork rangeMap w cfg repo_j j) as [tu [app|msg|msg]] eqn:Hu;
      cbn; try done.
    destruct (runUnits _ _ _ _ _) as [t' o'] eqn:Hrest. intros [= <- ->].
    destruct (IH _ _ Hrest) as (Hlen & Hother & Hdone).
    rewrite length_insert in Hlen, Hdone. split_and!; [done | |].
    + intros i Hi. apply not_elem_of_cons in Hi as [Hij Hi].
      rewrite (Hother i Hi). by apply list_lookup_insert_ne.
    + intros i repo Hi Hrepo Hlt.
      destruct (decide (i ∈ rest)) as [Hin|Hnin]; [by eapply Hdone|].
      apply elem_of_cons in Hi as [->|Hi]; [|done].
      rewrite Hj in Hrepo. injection Hrepo as <-.
      exists tu, app. split; [done|].
      rewrite (Hother j Hnin). by apply list_lookup_insert_eq.
  - intros Hrest. destruct (IH _ _ Hrest) as (Hlen & Hother & Hdone).
    split_and!; [done | |].
    + intros i Hi. apply not_elem_of_cons in Hi as [_ Hi]. by apply Hother.
    + intros i repo Hi Hrepo Hlt.
      apply elem_of_cons in Hi as [->|Hi]; [congruence | by eapply Hdone].
Qed.


Lemma main_report w completion trace report :
  main rangeMap sort_Slice w completion = (trace, Ret report) →
  ∃ cfg t apps,
    os_loadConfig w = inl cfg ∧
    runUnits rangeMap w cfg completion
      (replicate (length (Repositories cfg)) zeroApplication) = (t, Ret apps) ∧
    TotalCountSum report = int_sum (CountSum <$> apps) ∧
    Applications report
    = sort_Slice apps (λ a b, bool_decide (CountSum a > CountSum b)).
Proof using Type.
  unfold main. destruct (os_loadConfig w) as [cfg|err]; [|done].
  destruct (runUnits _ _ _ _ _) as [t [apps|msg|msg]] eqn:Hrun; cbn; try done.
  destruct (writeResult w _ _); cbn; [done|].
  intros [= <- <-]. exists cfg, t, apps. split_and!; try done.
  exact (calculateTotalCountSum_int_sum
           {| TotalApplications := Z.of_nat (length (Repositories cfg));
              rfSearchWords := SearchWords cfg;
              TotalCountSum := 0;
              Applications := apps |}).
Qed.

(** C3: in the report [main] writes, the total is the [int] sum of the
    sums of the applications and the sum of each application is the
    [int] sum of the counts of its results; these are the mathematical
    sums wherever those fit an [int]; the total is 0 when the
    configuration names no repository. *)
Theorem main_totalCountSum w completion trace report :
  main rangeMap sort_Slice w completion = (trace, Ret report) →
  TotalCountSum report = int_sum (CountSum <$> Applications report) ∧
  Forall (λ a, CountSum a = int_sum (Count <$> GrepResults a)) (Applications report) ∧
  (in_int (Zsum (CountSum <$> Applications report)) →
   TotalCountSum report = Zsum (CountSum <$> Applications report)) ∧
  Forall (λ a, in_int (Zsum (Count <$> GrepResults a)) →
               CountSum a = Zsum (Count <$> GrepResults a)) (Applications report) ∧
  (∀ cfg, os_loadConfig w = inl cfg → Repositories cfg = [] →
          TotalCountSum report = 0).
Proof using sort_Slice_perm.
  intros (cfg & t & apps & Hcfg & Hrun & Htotal & Happs)%main_report.
  assert (TotalCountSum report = int_sum (CountSum <$> Applications report)) as Hsum.
  { rewrite Htotal, Happs. unfold int_sum. f_equal.
    apply Zsum_Permutation. by rewrite sort_Slice_perm. }
  assert (Forall (λ a, CountSum a = int_sum (Count <$> GrepResults a))
            (Applications report)) as Heach.
  { rewrite Happs, sort_Slice_perm.
    eapply runUnits_slots; [| |exact Hrun].
    - intros repo i tu app Hu.
      rewrite (unitOfWork_countSum _ _ _ _ _ _ Hu).
      apply sumTotalCountForGrepResults_int_sum.
    - apply Forall_replicate. reflexivity. }
  split_and!.
  - exact Hsum.
  - exact Heach.
  - intros Hfit. by rewrite Hsum, int_sum_exact.
  - eapply Forall_impl; [exact Heach|]. intros a -> Hfit. by apply int_sum_exact.
  - intros cfg' Hcfg' Hnone. rewrite Hcfg in Hcfg'. injection Hcfg' as <-.
    rewrite runUnits_no_repositories in Hrun by done.
    injection Hrun as _ <-. rewrite Htotal, Hnone. reflexivity.
Qed.

Lemma countSum_less_strict_weak :
  StrictWeakOrder (λ a b : Application, bool_decide (CountSum a > CountSum b)).
Proof using Type.
  split_and!.
  - intros x. apply bool_decide_eq_false. lia.
  - intros x y z. rewrite !bool_decide_eq_true. lia.
  - intros x y z. rewrite !bool_decide_eq_false. lia.
Qed.

(** C4: whatever the order in which the units of work completed, the
    applications of the report [main] writes are in descending order of
    their sums: each one has a sum at least that of every later one. *)
Theorem main_sorted_desc w completion trace report :
  main rangeMap sort_Slice w completion = (trace, Ret report) →
  StronglySorted (λ a b, CountSum b ≤ CountSum a) (Applications report).
Proof using sort_Slice_sorted.
  intros (cfg & t & apps & _ & _ & _ & ->)%main_report.
  apply Sorted_StronglySorted.
  { intros a b c. lia. }
  pose proof (sort_Slice_sorted apps _ countSum_less_strict_weak) as Hs.
  unfold SliceIsSorted in Hs.
  induction Hs as [|a l Hl IH Hhd]; constructor; [done|].
  destruct Hhd as [|b l Hab]; constructor.
  apply bool_decide_eq_false in Hab. lia.
Qed.
End LineModeRun.

(** Merge sort is one behaviour [sort.Slice] may have. *)
Lemma mergeSortSlice_perm {A} (l : list A) less : mergeSortSlice l less ≡ₚ l.
Proof. apply merge_sort_Permutation. Qed.

Lemma mergeSortSlice_sorted {A} (l : list A) less :
  StrictWeakOrder less → SliceIsSorted less (mergeSortSlice l less).
Proof.
  intros (Hirr & Htrans & _).
  assert (Total (λ a b : A, less b a = false)) as Htotal.
  { intros a b. destruct (less b a) eqn:Hba; [|by left]. right.
    destruct (less a b) eqn:Hab; [|done].
    by rewrite <-(Hirr a), (Htrans a b a Hab Hba). }
  unfold SliceIsSorted, mergeSortSlice.
  apply (@Sorted_merge_sort A (λ a b, less b a = false) _ Htotal).
Qed.

Lemma main_totalCountSum_witness :
  ∃ trace report,
    LineMode.main map_to_list mergeSortSlice exampleWorld [1; 0]%nat = (trace, Ret report) ∧
    TotalCountSum report = 6 ∧
    CountSum <$> Applications report = [4; 2] ∧
    TotalCountSum report = int_sum (CountSum <$> Applications report) ∧
    Forall (λ a, CountSum a = int_sum (Count <$> GrepResults a)) (Applications report).
Proof.
  destruct (LineMode.main map_to_list mergeSortSlice exampleWorld [1; 0]%nat)
    as [trace [report|msg|msg]] eqn:Hrun; try (by vm_compute in Hrun).
  exists trace, report.
  destruct (main_totalCountSum map_to_list mergeSortSlice
              (λ l less, mergeSortSlice_perm l less)
              exampleWorld [1; 0]%nat trace report Hrun) as (Htotal & Heach & _).
  vm_compute in Hrun. injection Hrun as <- <-.
  split_and!; [reflexivity | reflexivity | reflexivity | exact Htotal | exact Heach].
Defined.

Lemma main_sorted_desc_witness :
  ∃ trace report,
    LineMode.main map_to_list mergeSortSlice exampleWorld [1; 0]%nat = (trace, Ret report) ∧
    appName <$> Applications report = ["second"; "first"] ∧
    StronglySorted (λ a b, CountSum b ≤ CountSum a) (Applications report).
Proof.
  destruct (LineMode.main map_to_list mergeSortSlice exampleWorld [1; 0]%nat)
    as [trace [report|msg|msg]] eqn:Hrun; try (by vm_compute in Hrun).
  exists trace, report.
  pose proof (main_sorted_desc map_to_list mergeSortSlice
                (λ l less, mergeSortSlice_sorted l less)
                exampleWorld [1; 0]%nat trace report Hrun) as Hsorted.
  vm_compute in Hrun. injection Hrun as <- <-.
  split_and!; [reflexivity | reflexivity | exact Hsorted].
Defined.

(** ** The count variant *)

Lemma mbind_ext {A B} (m : M A) (f g : A → M B) :
  (∀ a, f a = g a) → (m ≫= f) = (m ≫= g).
Proof.
  intros Hfg. destruct m as [t [a|msg|msg]]; [|done..].
  unfold mbind, M_bind. by rewrite Hfg.
Qed.

Lemma parse_digits_not_digits s acc : allDigits s = false → parse_digits acc s = None.
Proof.
  revert acc; induction s as [|c s IH]; intros acc; simpl; [done|].
  unfold isDigit. destruct (digit_value c); [|done]. simpl. apply IH.
Qed.

Lemma Atoi_not_numeral s :
  decimalNumeral s = false → ∃ err, Atoi s = inr err.
Proof.
  unfold decimalNumeral, Atoi.
  set (split := match s with
                | String "-"%char rest => (true, rest)
                | String "+"%char rest => (false, rest)
                | _ => (false, s)
                end).
  set (body := match s with
               | String "-"%char rest => rest
               | String "+"%char rest => rest
               | _ => s
               end).
  assert (split.2 = body) as Hb.
  { subst split body. destruct s as [|[[][][][][][][][]] s]; done. }
  destruct split as [neg body']. simpl in Hb. subst body'.
  destruct body as [|c b]; [eauto|].
  intros Hd. rewrite (parse_digits_not_digits _ _ Hd). eauto.
Qed.

Section CountModeParse.
Import CountMode.

Lemma parseLines_fields line rest pathGrepped results field0 field1 more :
  Split line ":" = field0 :: field1 :: more →
  parseLines (line :: rest) pathGrepped results =
    if decide (field0 = "") then parseLines rest pathGrepped results
    else if decide (field1 = "") then parseLines rest pathGrepped results
    else if isNoMatches field1 then parseLines rest pathGrepped results
    else match Atoi field1 with
         | inr err => (Println err;; mret [])
         | inl count =>
             (name ← removeBasePath field0 pathGrepped;
              parseLines rest pathGrepped
                (results ++ [{| FileName := name; Count := count |}]))
         end.
Proof.
  intros Hs. cbn [parseLines]. rewrite Hs. unfold index. cbn [lookup list_lookup].
  rewrite mret_bind. case_decide; [done|]. by rewrite mret_bind.
Qed.

Lemma parseLines_empty_line rest pathGrepped results :
  parseLines ("" :: rest) pathGrepped results = parseLines rest pathGrepped results.
Proof.
  cbn [parseLines]. change (Split "" ":") with [""].
  unfold index. cbn [lookup list_lookup]. by rewrite mret_bind.
Qed.

(** A non-empty line without a colon: the second field is read from a
    slice of length one. *)
Lemma parseLines_no_colon line rest pathGrepped results :
  line ≠ "" → Contains line ":" = false →
  parseLines (line :: rest) pathGrepped results = panic "index out of range".
Proof.
  intros Hne Hc%Contains_false. cbn [parseLines].
  rewrite (Split_no_sep _ _ _ Hc). unfold index. cbn [lookup list_lookup].
  rewrite mret_bind. by rewrite decide_False.
Qed.

Lemma parseLines_zero_count line rest pathGrepped results :
  countField line = Some "0" →
  parseLines (line :: rest) pathGrepped results = parseLines rest pathGrepped results.
Proof.
  unfold countField. intros Hf.
  destruct (Split line ":") as [|field0 [|field1 more]] eqn:Hs; try done.
  injection Hf as ->. rewrite (parseLines_fields _ _ _ _ _ _ _ Hs).
  by case_decide.
Qed.

Lemma parseLines_filter_zero lines pathGrepped results :
  parseLines lines pathGrepped results =
  parseLines (filter (λ line, countField line ≠ Some "0") lines) pathGrepped results.
Proof.
  revert results; induction lines as [|line rest IH]; intros results; [done|].
  destruct (decide (countField line = Some "0")) as [Hz|Hz].
  - rewrite filter_cons_False by (intros ?; done).
    by rewrite parseLines_zero_count.
  - rewrite filter_cons_True by done. cbn [parseLines].
    apply mbind_ext. intros field0. case_decide; [apply IH|].
    apply mbind_ext. intros field1. case_decide; [apply IH|].
    destruct (isNoMatches field1); [apply IH|].
    destruct (Atoi field1); [|done].
    apply mbind_ext. intros name. apply IH.
Qed.

(** C7: parsing the output is parsing it without the lines whose count
    field is ["0"]: such a line adds no result (and stops nothing). *)
Theorem parseGrepOutput_excludes_zero_count out pathGrepped :
  parseGrepOutput out pathGrepped =
  parseLines (filter (λ line, countField line ≠ Some "0") (Split out newline))
    pathGrepped [].
Proof. apply parseLines_filter_zero. Qed.

(** C10: the count variant panics on a non-empty line without a colon,
    as on the output [abc]. *)
Theorem parseGrepOutput_count_not_total :
  (∀ line rest pathGrepped results,
     line ≠ "" → Contains line ":" = false →
     parseLines (line :: rest) pathGrepped results = panic "index out of range") ∧
  ∃ out pathGrepped line,
    line ∈ Split out newline ∧ line ≠ "" ∧ Contains line ":" = false ∧
    parseGrepOutput out pathGrepped = panic "index out of range".
Proof.
  split; [apply parseLines_no_colon|].
  exists "abc", "r", "abc". split_and!; [vm_compute; left | done | done | done].
Qed.

(** A line with a bad count and a path field stops the loop once the
    loop reaches it: what was parsed before it is dropped. *)
Lemma parseLines_bad_count before line after pathGrepped results :
  Forall (passesWithoutPanic pathGrepped) before →
  badCount line → pathField line ≠ Some "" →
  ∃ err,
    parseLines (before ++ line :: after) pathGrepped results = ([EvLog err], Ret []).
Proof.
  intros Hbefore (count & Hcount & Hne & Hnum) Hpath. revert results.
  induction Hbefore as [|l before Hl _ IH]; intros results; cbn [app].
  - unfold countField, pathField in *.
    destruct (Split line ":") as [|field0 [|field1 more]] eqn:Hs; try done.
    injection Hcount as ->. rewrite (parseLines_fields _ _ _ _ _ _ _ Hs).
    rewrite decide_False by (by intros ->).
    rewrite decide_False by done.
    unfold isNoMatches. rewrite bool_decide_eq_false_2 by (by intros ->).
    destruct (Atoi_not_numeral _ Hnum) as [err ->]. by exists err.
  - destruct Hl as [->|(path & field & Hp & Hf & Hcase)].
    { rewrite parseLines_empty_line. apply IH. }
    unfold countField, pathField in *.
    destruct (Split l ":") as [|field0 [|field1 more]] eqn:Hs; try done.
    injection Hp as ->. injection Hf as ->.
    rewrite (parseLines_fields _ _ _ _ _ _ _ Hs).
    case_decide; [apply IH|]. case_decide; [apply IH|].
    destruct (isNoMatches field) eqn:Hz; [apply IH|].
    destruct (Atoi field) as [v|err] eqn:Ha; [|by exists err].
    destruct Hcase as [?|[?|[->|[[err ?]|Hin]]]]; try done.
    apply removeBasePath_inside in Hin as [name ->]. rewrite mret_bind. apply IH.
Qed.

Lemma count_grep_unfold env path searchWords excludeDirs :
  grep env path searchWords excludeDirs =
   (Println ("running command: " +:+ Join (countGrepArgv path searchWords excludeDirs) " ");;
    emit (EvExec (countGrepArgv path searchWords excludeDirs));;
    match cmd_Output env (countGrepArgv path searchWords excludeDirs) with
    | CmdExit code stderr =>
        if decide (code = GrepErrorCodeNoMatches) then mret ([], None)
        else mret ([], Some ("unable to execute grep command: " +:+ stderr))
    | CmdErr err => mret ([], Some ("unable to execute grep command: " +:+ err))
    | CmdOk grepOut =>
        results ← parseGrepOutput grepOut path;
        mret (results, None)
    end).
Proof. reflexivity. Qed.

(** C9, as amended: a line of the output has a path field that is not
    empty and a count field that is not empty and not a decimal numeral,
    and the loop gets past every line before it without a panic.  Then
    [parseGrepOutput] writes the error to the log and returns no result
    at all, [grep] hands this on with a nil error, and so does
    [analyzeRepo] after removing the directory: nothing reaches the
    [log.Fatalf] of the unit of work. *)
Theorem parseGrepOutput_bad_count_aborts out pathGrepped before line after :
  Split out newline = before ++ line :: after →
  Forall (passesWithoutPanic pathGrepped) before →
  badCount line → pathField line ≠ Some "" →
  (∃ err, parseGrepOutput out pathGrepped = ([EvLog err], Ret [])) ∧
  (∀ env searchWords excludeDirs,
     cmd_Output env (countGrepArgv pathGrepped searchWords excludeDirs) = CmdOk out →
     (grep env pathGrepped searchWords excludeDirs).2 = Ret ([], None)) ∧
  (∀ env r searchWords excludeDirs,
     ioutil_TempDir env = inl pathGrepped →
     cmd_Run env (gitCloneArgv r pathGrepped) = None →
     cmd_Output env (countGrepArgv pathGrepped searchWords excludeDirs) = CmdOk out →
     (analyzeRepo env r searchWords excludeDirs).2 = Ret ([], None)).
Proof.
  intros Hlines Hbefore Hbad Hpath.
  destruct (parseLines_bad_count _ _ after _ [] Hbefore Hbad Hpath) as [err Herr].
  rewrite <-Hlines in Herr. fold (parseGrepOutput out pathGrepped) in Herr.
  assert (∀ env searchWords excludeDirs,
            cmd_Output env (countGrepArgv pathGrepped searchWords excludeDirs) = CmdOk out →
            ∃ t, grep env pathGrepped searchWords excludeDirs = (t, Ret ([], None)))
    as Hgrep.
  { intros env sw ex Hout. rewrite count_grep_unfold, Hout, Herr. by eexists. }
  split_and!.
  - by exists err.
  - intros env sw ex Hout. by destruct (Hgrep env sw ex Hout) as [t ->].
  - intros env r sw ex Ht Hc Hout. unfold analyzeRepo.
    rewrite (cloneRepo_ok _ _ _ Ht Hc).
    destruct (Hgrep env sw ex Hout) as [t Hg].
    destruct (removeDir_trace env pathGrepped) as (logged & Hrm & _).
    unfold mbind at 1, M_bind at 1. by rewrite Hg, Hrm.
Qed.
End CountModeParse.

Example parseGrepOutput_zero_count_example :
  CountMode.parseGrepOutput
    (Join ["r/a.go:3"; "r/b.go:0"; "r/c.go:12"; ""] newline) "r"
  = mret [{| FileName := "a.go"; Count := 3 |}; {| FileName := "c.go"; Count := 12 |}].
Proof. by vm_compute. Qed.

Lemma parseGrepOutput_count_not_total_witness :
  CountMode.parseLines ["abc"; "r/a.go:3"] "r" [] = panic "index out of range".
Proof.
  apply (proj1 parseGrepOutput_count_not_total "abc" ["r/a.go:3"] "r" []);
    [discriminate | reflexivity].
Defined.

(** Shows that a literal line has the shape [path:count]. *)
Ltac count_mode_line :=
  lazymatch goal with
  | |- countModeLine _ "" => by left
  | |- countModeLine _ ?l =>
      let fields := eval vm_compute in (Split l ":") in
      lazymatch fields with
      | [?p; ?c] => right; exists p, c; split_and!; reflexivity
      end
  end.

Lemma parseGrepOutput_bad_count_aborts_witness :
  ∃ err, CountMode.parseGrepOutput exampleCountOutput "/tmp/clone1" = ([EvLog err], Ret []).
Proof.
  refine (proj1 (parseGrepOutput_bad_count_aborts exampleCountOutput "/tmp/clone1"
                   ["/tmp/clone1/a.go:3"] "/tmp/clone1/b:c.go:5"
                   ["/tmp/clone1/d.go:12"; ""] _ _ _ _)).
  - by vm_compute.
  - constructor; [|constructor]. right. exists "/tmp/clone1/a.go", "3".
    split_and!; [reflexivity | reflexivity |]. do 4 right. reflexivity.
  - exists "c.go". split_and!; [reflexivity | discriminate | reflexivity].
  - discriminate.
Defined.

(** C9 as stated fails: the line [:x1] has a count field that is no
    numeral, yet with its empty path field the loop passes over it, logs
    nothing and keeps the earlier result; and the line [r/b.go:x1] is
    not reached when the line before it has no colon, which makes the
    loop panic. *)
Lemma bad_count_line_without_abort :
  badCount ":x1" ∧
  CountMode.parseGrepOutput (Join ["r/a.go:3"; ":x1"] newline) "r"
  = mret [{| FileName := "a.go"; Count := 3 |}] ∧
  badCount "r/b.go:x1" ∧
  CountMode.parseGrepOutput (Join ["abc"; "r/b.go:x1"] newline) "r"
  = panic "index out of range".
Proof.
  split_and!; [| by vm_compute | | by vm_compute];
    exists "x1"; split_and!; (reflexivity || discriminate).
Qed.

(** The near-duplicate variant has no sorting step: on the example run
    its report lists the applications in slot order, the smaller sum
    first. *)
Remark count_variant_report_not_sorted :
  ∃ trace report,
    CountMode.main
      {| os_loadConfig := inl exampleConfig;
         unit_env := λ i,
           exampleEnv (CmdOk (match i with
                              | O => "/tmp/clone1/a.go:2"
                              | _ => "/tmp/clone1/x.go:4"
                              end));
         ioutil_WriteFile := λ _ _, None;
         spare_ExcludeDirs := 1;
         appends_between := λ _, [] |} [1; 0]%nat = (trace, Ret report) ∧
    CountSum <$> Applications report = [2; 4].
Proof. eexists _, _. split; by vm_compute. Qed.

(** The input of [TestParseGrepOutput]: four files, [results.json] with
    three matches; the order of the results is that of the map. *)
Example parseGrepOutput_testInput :
  ∃ results,
    LineMode.parseGrepOutput map_to_list (Join testInput newline)
      "repository-words-grepper" = mret results ∧
    results ≡ₚ [ {| FileName := "config.json"; Count := 1 |};
                 {| FileName := "go.mod"; Count := 1 |};
                 {| FileName := "results.json"; Count := 3 |};
                 {| FileName := "test.txt"; Count := 1 |} ].
Proof.
  eexists. split; [by vm_compute|]. apply Permutation_swap.
Qed.

(** * Further properties of the code *)

(** ** The command line and the base path *)

Lemma fold_left_snoc_fmap {A B} (f : A → B) (l : list A) acc :
  fold_left (λ result x, result ++ [f x]) l acc = acc ++ (f <$> l).
Proof.
  revert acc; induction l as [|x l IH]; intros acc; simpl.
  - by rewrite app_nil_r.
  - by rewrite IH, <-app_assoc.
Qed.

(** X1: [searchWordsStr] and [grepExcludeDirStr] give one flag per word
    and per directory, in the order of their arguments (so none is lost,
    repeated or reordered, and an empty list gives no flag). *)
Theorem grep_flags_in_order searchWords excludeDirs :
  searchWordsStr searchWords = (λ word, "--regexp=" +:+ word) <$> searchWords ∧
  grepExcludeDirStr excludeDirs = (λ dir, "--exclude-dir=" +:+ dir) <$> excludeDirs.
Proof.
  unfold searchWordsStr, grepExcludeDirStr.
  by rewrite !fold_left_snoc_fmap.
Qed.

(** X2: [removeBasePath] returns a name exactly when the path is
    [before], [basePath/], the name and [after], where this [basePath/]
    is the first instance in the path (the one [strings.Index] finds: no
    instance starts further left, overlapping ones included), the name
    holds no [basePath/], and [after] is empty or starts at the first
    instance of [basePath/] in what follows.  So the name is the text
    between the first [basePath/] and the next one after it, or the end
    of the path. *)
Theorem removeBasePath_result_shape path basePath name :
  removeBasePath path basePath = mret name ↔
  ∃ before after,
    path = before +:+ (basePath +:+ "/") +:+ name +:+ after ∧
    Index path (basePath +:+ "/") = Some (String.length before) ∧
    Contains name (basePath +:+ "/") = false ∧
    (after = "" ∨
     Index (name +:+ after) (basePath +:+ "/") = Some (String.length name)).
Proof.
  unfold removeBasePath, Contains.
  destruct (app_slash_cons basePath) as (c & sep & Heq). rewrite Heq.
  split.
  - intros Hret.
    destruct (Index path (String c sep)) as [m|] eqn:Hi.
    2: { by rewrite (Split_no_sep _ _ _ Hi) in Hret. }
    rewrite (Split_cons _ _ _ _ Hi) in Hret.
    pose proof (Index_Some_split _ _ _ Hi) as Hpath.
    pose proof (Index_Some_bound _ _ _ Hi) as Hbound.
    set (rest := slice_from _ path) in *.
    exists (slice_to m path).
    rewrite slice_to_length by lia.
    destruct (Index rest (String c sep)) as [k|] eqn:Hk.
    + rewrite (Split_cons _ _ _ _ Hk) in Hret.
      rewrite decide_True in Hret by (simpl; lia).
      injection Hret as <-.
      pose proof (Index_Some_split _ _ _ Hk) as Hrest.
      pose proof (Index_Some_bound _ _ _ Hk) as Hkb.
      exists (String c sep +:+ slice_from (k + String.length (String c sep)) rest).
      split_and!.
      * by rewrite <-Hrest.
      * done.
      * by rewrite (Index_slice_to_None _ _ _ _ Hk).
      * right. rewrite <-Hrest, Hk. by rewrite slice_to_length by lia.
    + rewrite (Split_no_sep _ _ _ Hk) in Hret.
      rewrite decide_True in Hret by (simpl; lia).
      injection Hret as <-.
      exists "". split_and!.
      * by rewrite app_str_nil_r.
      * done.
      * by rewrite Hk.
      * by left.
  - intros (before & after & -> & Hi & Hname & Hafter).
    rewrite (Split_cons _ _ _ _ Hi).
    rewrite slice_from_add, slice_from_app, slice_from_app.
    destruct (Index name (String c sep)) eqn:Hn; [done|].
    destruct Hafter as [->|Hk].
    + rewrite app_str_nil_r, (Split_no_sep _ _ _ Hn).
      by rewrite decide_True by (simpl; lia).
    + rewrite (Split_cons _ _ _ _ Hk), !slice_to_app.
      by rewrite decide_True by (simpl; lia).
Qed.

(** For the path [a/a/a/] and the base path [a/a], whose [basePath/]
    overlaps itself in the path, the name is [a/]: the instance taken is
    the one at position 0. *)
Lemma removeBasePath_result_shape_witness :
  ∃ before after,
    "a/a/a/" = before +:+ ("a/a" +:+ "/") +:+ "a/" +:+ after ∧
    Index "a/a/a/" ("a/a" +:+ "/") = Some (String.length before) ∧
    Contains "a/" ("a/a" +:+ "/") = false ∧
    (after = "" ∨ Index ("a/" +:+ after) ("a/a" +:+ "/") = Some (String.length "a/")).
Proof.
  apply (proj1 (removeBasePath_result_shape "a/a/a/" "a/a" "a/")). reflexivity.
Defined.

Lemma Index_at_prefix sep rel : Index (sep +:+ rel) sep = Some O.
Proof.
  destruct (sep +:+ rel) as [|c s] eqn:Heq; simpl;
    by rewrite <-Heq, HasPrefix_app.
Qed.

(** When the rest holds a further [basePath/], the name stops there. *)
Lemma removeBasePath_prefix_again basePath rel k :
  Index rel (basePath +:+ "/") = Some k →
  removeBasePath (basePath +:+ "/" +:+ rel) basePath = mret (slice_to k rel).
Proof.
  intros Hk. unfold removeBasePath. rewrite <-app_str_assoc.
  destruct (app_slash_cons basePath) as (c & sep & Heq). rewrite Heq in *.
  rewrite (Split_cons _ _ _ _ (Index_at_prefix (String c sep) rel)).
  replace (0 + String.length (String c sep))%nat with (String.length (String c sep)) by done.
  rewrite slice_from_app, (Split_cons _ _ _ _ Hk). done.
Qed.

(** X3: for a path made of [basePath/] and a rest, [removeBasePath]
    returns the rest exactly when the rest holds no further [basePath/];
    otherwise it returns a proper prefix of the rest. *)
Theorem removeBasePath_strips_prefix_iff basePath rel :
  removeBasePath (basePath +:+ "/" +:+ rel) basePath = mret rel ↔
  Contains rel (basePath +:+ "/") = false.
Proof.
  split; [|apply removeBasePath_prefix].
  unfold Contains. destruct (Index rel (basePath +:+ "/")) as [k|] eqn:Hk; [|done].
  rewrite (removeBasePath_prefix_again _ _ _ Hk). intros [= Heq].
  pose proof (Index_Some_bound _ _ _ Hk) as Hb.
  assert (String.length (slice_to k rel) = String.length rel) as Hl by (by rewrite Heq).
  rewrite slice_to_length in Hl by lia.
  destruct (app_slash_cons basePath) as (c & sep & Hsep). rewrite Hsep in Hb.
  simpl in Hb. lia.
Qed.

(** ** More on [parseGrepOutput] of the line variant *)

Lemma Zsum_cons x l : Zsum (x :: l) = x + Zsum l.
Proof. reflexivity. Qed.

Lemma Zsum_nonneg l : Forall (λ x, 0 ≤ x) l → 0 ≤ Zsum l.
Proof. induction 1; [done|]. rewrite Zsum_cons. lia. Qed.

(** The sum of the counters of a map of counts. *)
Lemma Zsum_values_insert (m : gmap string Z) k v :
  Zsum ((map_to_list (<[k := v]> m)).*2)
  = v + Zsum ((map_to_list m).*2) - default 0 (m !! k).
Proof.
  destruct (m !! k) as [v0|] eqn:Hk; cbn [default from_option id].
  - rewrite <-(insert_delete_eq m).
    rewrite (Zsum_Permutation _ ((k, v) :: map_to_list (delete k m)).*2).
    2: { apply fmap_Permutation, map_to_list_insert, lookup_delete_eq. }
    rewrite (Zsum_Permutation (map_to_list m).*2 ((k, v0) :: map_to_list (delete k m)).*2).
    2: { apply fmap_Permutation. symmetry. by apply map_to_list_delete. }
    rewrite !fmap_cons, !Zsum_cons. simpl. lia.
  - rewrite (Zsum_Permutation _ ((k, v) :: map_to_list m).*2).
    2: { by apply fmap_Permutation, map_to_list_insert. }
    rewrite fmap_cons, Zsum_cons. simpl. lia.
Qed.

Lemma Zsum_values_lookup (m : gmap string Z) k v :
  (∀ k' v', m !! k' = Some v' → 0 ≤ v') →
  m !! k = Some v → v ≤ Zsum ((map_to_list m).*2).
Proof.
  intros Hpos Hk.
  rewrite (Zsum_Permutation (map_to_list m).*2 ((k, v) :: map_to_list (delete k m)).*2).
  2: { apply fmap_Permutation. symmetry. by apply map_to_list_delete. }
  rewrite fmap_cons, Zsum_cons. simpl.
  assert (0 ≤ Zsum (map_to_list (delete k m)).*2); [|lia].
  apply Zsum_nonneg, Forall_fmap, Forall_forall.
  intros [k' v'] Hin%elem_of_map_to_list.
  apply lookup_delete_Some in Hin as [_ Hin]. by eapply Hpos.
Qed.

(** The loop adds one to the sum of the counters for each counted line,
    and every counter it leaves is at least 1. *)
Lemma countLines_total lines basePath pathCounts pathCounts' t :
  (∀ k v, pathCounts !! k = Some v → 1 ≤ v) →
  Zsum ((map_to_list pathCounts).*2) + Z.of_nat (length lines) ≤ MaxInt →
  LineMode.countLines lines basePath pathCounts = (t, Ret pathCounts') →
  (∀ k v, pathCounts' !! k = Some v → 1 ≤ v) ∧
  Zsum ((map_to_list pathCounts').*2)
  = Zsum ((map_to_list pathCounts).*2)
    + Z.of_nat (length (filter (λ line, counted line = true) lines)).
Proof.
  revert pathCounts t. induction lines as [|line rest IH]; intros pc t Hpos Hfit.
  { intros [= <- <-]. split; [done|]. simpl. lia. }
  destruct (counted line) eqn:Hc.
  - pose proof Hc as (path & token & Hm)%counted_matchLine.
    rewrite (countLines_step _ _ _ _ _ _ Hm).
    rewrite filter_cons_True by done.
    destruct (Contains path (basePath +:+ "/")) eqn:Hin.
    2: { by rewrite (removeBasePath_outside _ _ Hin), panic_bind. }
    apply removeBasePath_inside in Hin as [name ->]. rewrite mret_bind.
    assert (0 ≤ default 0 (pc !! name) ≤ Zsum (map_to_list pc).*2) as Hold.
    { destruct (pc !! name) as [v|] eqn:Hv; cbn [default from_option id].
      - split; [by apply Hpos in Hv; lia|].
        apply (Zsum_values_lookup pc name v); [|done].
        intros k' v' Hk'. apply Hpos in Hk'. lia.
      - split; [done|].
        apply Zsum_nonneg, Forall_fmap, Forall_forall.
        intros [k' v'] Hk'%elem_of_map_to_list.
        apply Hpos in Hk'. simpl. lia. }
    cbn [length] in Hfit.
    assert (int_add (default 0 (pc !! name)) 1 = default 0 (pc !! name) + 1) as Hadd.
    { apply wrap_in_int. unfold in_int, MinInt, MaxInt in *. lia. }
    rewrite Hadd. intros Hrun.
    apply IH in Hrun as [Hpos' Hsum].
    + split; [done|]. rewrite Hsum, Zsum_values_insert. cbn [length]. lia.
    + intros k v. rewrite lookup_insert. case_decide; [|by apply Hpos].
      intros [= <-]. lia.
    + rewrite Zsum_values_insert. lia.
  - rewrite countLines_skip by done.
    rewrite filter_cons_False by (by rewrite Hc).
    cbn [length] in Hfit. apply IH; [done | lia].
Qed.

Section LineModeParseMore.
Import LineMode.
Variables rangeMap rangeMap' : gmap string Z → list (string * Z).
Hypothesis rangeMap_perm : ∀ m, rangeMap m ≡ₚ map_to_list m.
Hypothesis rangeMap'_perm : ∀ m, rangeMap' m ≡ₚ map_to_list m.

(** X4: output without a counted line (the empty output, blank lines,
    lines without a colon or with an empty side) gives no result, and no
    panic, whatever the base path. *)
Theorem parseGrepOutput_nothing_counted out basePath :
  (∀ line, line ∈ Split out newline → counted line = false) →
  parseGrepOutput rangeMap out basePath = mret [].
Proof using rangeMap_perm.
  intros Hnone. unfold parseGrepOutput.
  assert (∀ pc, countLines (Split out newline) basePath pc = mret pc) as ->.
  { induction (Split out newline) as [|line rest IH]; intros pc; [done|].
    rewrite countLines_skip by (apply Hnone; left).
    apply IH. intros l Hl. apply Hnone. by right. }
  rewrite mret_bind, range_results, app_nil_l.
  pose proof (rangeMap_perm ∅) as Hp. rewrite map_to_list_empty in Hp.
  by apply Permutation_nil_r in Hp as ->.
Qed.

(** X5: when every counted line names a path under [basePath],
    [parseGrepOutput] returns results whose counts add up to the number
    of counted lines of the output, and each count is at least 1. *)
Theorem parseGrepOutput_total_matches out basePath :
  Z.of_nat (length (Split out newline)) ≤ MaxInt →
  (∀ line path token,
     line ∈ Split out newline → matchLine line path token →
     Contains path (basePath +:+ "/") = true) →
  ∃ results,
    parseGrepOutput rangeMap out basePath = mret results ∧
    Zsum (Count <$> results)
    = Z.of_nat (length (filter (λ line, counted line = true) (Split out newline))) ∧
    Forall (λ r, 1 ≤ Count r) results.
Proof using rangeMap_perm.
  intros Hlen Hin. unfold parseGrepOutput.
  destruct (countLines_lookup (Split out newline) basePath ∅ Hin) as (pc & Hrun & _).
  assert (∀ k v, (∅ : gmap string Z) !! k = Some v → 1 ≤ v) as Hempty.
  { intros k v. by rewrite lookup_empty. }
  assert (Zsum (map_to_list (∅ : gmap string Z)).*2
          + Z.of_nat (length (Split out newline)) ≤ MaxInt) as Hfit.
  { rewrite map_to_list_empty. by rewrite Z.add_0_l. }
  destruct (countLines_total _ _ ∅ pc [] Hempty Hfit Hrun) as [Hpos Hsum].
  rewrite Hrun, mret_bind, range_results, app_nil_l.
  eexists; split_and!; [done | |].
  - rewrite <-list_fmap_compose. change (Count ∘ mkGrepResult) with (@snd string Z).
    rewrite (Zsum_Permutation _ (map_to_list pc).*2) by (by rewrite rangeMap_perm).
    rewrite Hsum, map_to_list_empty. simpl. lia.
  - apply Forall_fmap, Forall_forall. intros [k v] Hkv. simpl.
    rewrite rangeMap_perm in Hkv. apply elem_of_map_to_list in Hkv. by eapply Hpos.
Qed.

(** X6: under the same condition the file names of the results are
    exactly the names the counted lines are counted for: no name is
    invented and none is lost. *)
Theorem parseGrepOutput_names out basePath :
  (∀ line path token,
     line ∈ Split out newline → matchLine line path token →
     Contains path (basePath +:+ "/") = true) →
  ∃ results,
    parseGrepOutput rangeMap out basePath = mret results ∧
    ∀ P, P ∈ FileName <$> results ↔
         ∃ line, line ∈ Split out newline ∧ lineName basePath line = Some P.
Proof using rangeMap_perm.
  intros Hin. unfold parseGrepOutput.
  destruct (countLines_lookup (Split out newline) basePath ∅ Hin) as (pc & -> & Hpc).
  rewrite mret_bind, range_results, app_nil_l.
  eexists; split; [done|]. intros P.
  rewrite <-list_fmap_compose. change (FileName ∘ mkGrepResult) with (@fst string Z).
  rewrite rangeMap_perm.
  assert (P ∈ (map_to_list pc).*1 ↔ is_Some (pc !! P)) as ->.
  { rewrite list_elem_of_fmap. split.
    - intros ([k v] & -> & Hkv%elem_of_map_to_list). by exists v.
    - intros [v Hv]. exists (P, v). split; [done|]. by apply elem_of_map_to_list. }
  rewrite Hpc, lookup_empty.
  destruct (filter _ _) as [|line l] eqn:Hf; cbn [length].
  - split; [by intros [? ?]|]. intros (line & Hl & Hn).
    assert (line ∈ filter (λ line, lineName basePath line = Some P) (Split out newline))
      as Hel by (by apply list_elem_of_filter).
    rewrite Hf in Hel. by apply elem_of_nil in Hel.
  - split; [|by eexists]. intros _. exists line.
    assert (line ∈ filter (λ line, lineName basePath line = Some P) (Split out newline))
      as Hel by (rewrite Hf; left).
    apply list_elem_of_filter in Hel as [? ?]. done.
Qed.

(** X7: the order in which [range] visits the map only permutes the
    results: two runs over the same output return the same results up to
    their order, and one panics exactly when the other does. *)
Theorem parseGrepOutput_range_order out basePath :
  (∀ results,
     parseGrepOutput rangeMap out basePath = mret results →
     ∃ results',
       parseGrepOutput rangeMap' out basePath = mret results' ∧ results ≡ₚ results') ∧
  (∀ msg,
     parseGrepOutput rangeMap out basePath = panic msg ↔
     parseGrepOutput rangeMap' out basePath = panic msg).
Proof using rangeMap_perm rangeMap'_perm.
  unfold parseGrepOutput.
  destruct (countLines (Split out newline) basePath ∅) as [t [pc|m|m]].
  - cbn. rewrite !range_results, !app_nil_l, !app_nil_r. split.
    + intros results [= -> <-]. eexists; split; [done|].
      by rewrite rangeMap_perm, rangeMap'_perm.
    + done.
  - split; done.
  - split; done.
Qed.
End LineModeParseMore.

(** Settles a statement about every line of a literal output by going
    through its lines. *)
Ltac each_line :=
  let line := fresh "line" in
  let Hin := fresh "Hin" in
  intros line Hin; vm_compute in Hin;
  repeat (apply elem_of_cons in Hin as [->|Hin]);
  [ reflexivity .. | by apply elem_of_nil in Hin ].

(** The same for every [path:token] line of an output that also has
    other lines. *)
Ltac each_counted_line :=
  let line := fresh "line" in
  let Hin := fresh "Hin" in
  let Hm := fresh "Hm" in
  let Hp := fresh "Hp" in
  intros line ? ? Hin Hm; pose proof Hm as (_ & Hp & _);
  apply matchLine_split in Hm; vm_compute in Hin;
  repeat (apply elem_of_cons in Hin as [->|Hin]);
  [ vm_compute in Hm; injection Hm as <- <-; first [reflexivity | done] ..
  | by apply elem_of_nil in Hin ].

Lemma parseGrepOutput_nothing_counted_witness :
  LineMode.parseGrepOutput map_to_list
    (Join [""; "no colon here"; ":token"; "path:"; "a:b:c"; ""] newline) "r"
  = mret [].
Proof.
  apply (parseGrepOutput_nothing_counted map_to_list (λ m, reflexivity _)).
  each_line.
Defined.

Lemma parseGrepOutput_total_matches_witness :
  ∃ results,
    LineMode.parseGrepOutput map_to_list (exampleOutput 1) "/tmp/clone1" = mret results ∧
    Zsum (Count <$> results)
    = Z.of_nat (length (filter (λ line, counted line = true)
                          (Split (exampleOutput 1) newline))) ∧
    Forall (λ r, 1 ≤ Count r) results.
Proof.
  apply (parseGrepOutput_total_matches map_to_list (λ m, reflexivity _)
           (exampleOutput 1) "/tmp/clone1").
  - vm_compute. discriminate.
  - each_counted_line.
Defined.

Lemma parseGrepOutput_names_witness :
  ∃ results,
    LineMode.parseGrepOutput map_to_list (exampleOutput 1) "/tmp/clone1" = mret results ∧
    ∀ P, P ∈ FileName <$> results ↔
         ∃ line, line ∈ Split (exampleOutput 1) newline ∧
                 lineName "/tmp/clone1" line = Some P.
Proof.
  apply (parseGrepOutput_names map_to_list (λ m, reflexivity _)
           (exampleOutput 1) "/tmp/clone1").
  each_counted_line.
Defined.

Lemma parseGrepOutput_range_order_witness :
  (∀ results,
     LineMode.parseGrepOutput map_to_list (exampleOutput 1) "/tmp/clone1" = mret results →
     ∃ results',
       LineMode.parseGrepOutput (λ m, reverse (map_to_list m)) (exampleOutput 1)
         "/tmp/clone1" = mret results' ∧
       results ≡ₚ results') ∧
  (∀ msg,
     LineMode.parseGrepOutput map_to_list (exampleOutput 1) "/tmp/clone1" = panic msg ↔
     LineMode.parseGrepOutput (λ m, reverse (map_to_list m)) (exampleOutput 1)
       "/tmp/clone1" = panic msg).
Proof.
  apply (parseGrepOutput_range_order map_to_list (λ m, reverse (map_to_list m))
           (λ m, reflexivity _) (λ m, reverse_Permutation _)).
Defined.

(** ** More on the sums, [grep] and [analyzeRepo] *)

(** X8: neither sum depends on the order of the list it adds up, so the
    sum of an application is the same for every order in which the map
    of counts was visited, and the total is the same before and after
    sorting. *)
Theorem count_sums_ignore_order :
  (∀ grs grs',
     grs ≡ₚ grs' →
     sumTotalCountForGrepResults grs = sumTotalCountForGrepResults grs') ∧
  (∀ rf rf',
     Applications rf ≡ₚ Applications rf' →
     calculateTotalCountSum rf = calculateTotalCountSum rf').
Proof.
  split.
  - intros grs grs' Hp. rewrite !sumTotalCountForGrepResults_int_sum.
    unfold int_sum. f_equal. apply Zsum_Permutation. by rewrite Hp.
  - intros rf rf' Hp. rewrite !calculateTotalCountSum_int_sum.
    unfold int_sum. f_equal. apply Zsum_Permutation. by rewrite Hp.
Qed.

Lemma countLines_silent lines basePath pathCounts :
  (LineMode.countLines lines basePath pathCounts).1 = [].
Proof.
  revert pathCounts; induction lines as [|line rest IH]; intros pc; [done|].
  cbn [LineMode.countLines]. destruct (LineMode.splitOutputLine line) as [p tk].
  case_decide; [|apply IH].
  destruct (Contains p (basePath +:+ "/")) eqn:Hin.
  - apply removeBasePath_inside in Hin as [name ->]. rewrite mret_bind. apply IH.
  - by rewrite (removeBasePath_outside _ _ Hin).
Qed.

Section LineModeSearchMore.
Import LineMode.
Variable rangeMap : gmap string Z → list (string * Z).

Lemma parseGrepOutput_silent out basePath :
  (parseGrepOutput rangeMap out basePath).1 = [].
Proof.
  unfold parseGrepOutput.
  pose proof (countLines_silent (Split out newline) basePath ∅) as Hs.
  destruct (countLines _ _ _) as [t [pc|m|m]]; simpl in *; by subst.
Qed.

(** X9: whatever the search command answers, [grep] writes its command
    line to the log and then starts exactly this one command: [grep],
    one [--exclude-dir] per directory, one [--regexp] per word, the three
    fixed flags and the path last; nothing else is logged or started. *)
Theorem grep_runs_one_command env path searchWords excludeDirs :
  let argv :=
    "grep" :: ((λ dir, "--exclude-dir=" +:+ dir) <$> excludeDirs)
           ++ ((λ word, "--regexp=" +:+ word) <$> searchWords)
           ++ ["--recursive"; "--ignore-case"; "--only-matching"; path] in
  (grep rangeMap env path searchWords excludeDirs).1
  = [EvLog ("running command: " +:+ Join argv " "); EvExec argv].
Proof.
  intros argv.
  assert (lineGrepArgv path searchWords excludeDirs = argv) as Hargv.
  { unfold lineGrepArgv, argv, searchWordsStr, grepExcludeDirStr.
    by rewrite !fold_left_snoc_fmap, !app_nil_l, <-app_assoc. }
  rewrite line_grep_unfold, Hargv.
  destruct (cmd_Output env argv) as [out|code stderr|err]; [| by case_decide | done].
  pose proof (parseGrepOutput_silent out path) as Hs.
  destruct (parseGrepOutput rangeMap out path) as [t [r|m|m]]; simpl in *; by subst.
Qed.

(** X10: [grep] ends in one of four ways and in no other: an error with
    no results (the command exited with a status other than 1 or did not
    start), no results and no error (exit status 1), the results of
    [parseGrepOutput] for the output relative to the searched path with
    no error, or the panic of that parser; it never exits the process. *)
Theorem grep_outcomes env path searchWords excludeDirs :
  match (grep rangeMap env path searchWords excludeDirs).2 with
  | Ret (results, Some e) =>
      results = [] ∧
      ((∃ code stderr,
          code ≠ 1 ∧
          cmd_Output env (lineGrepArgv path searchWords excludeDirs) = CmdExit code stderr ∧
          e = "unable to execute grep command: " +:+ stderr) ∨
       (∃ err,
          cmd_Output env (lineGrepArgv path searchWords excludeDirs) = CmdErr err ∧
          e = "unable to execute grep command: " +:+ err))
  | Ret (results, None) =>
      (results = [] ∧
       ∃ stderr,
         cmd_Output env (lineGrepArgv path searchWords excludeDirs) = CmdExit 1 stderr) ∨
      (∃ out,
         cmd_Output env (lineGrepArgv path searchWords excludeDirs) = CmdOk out ∧
         (parseGrepOutput rangeMap out path).2 = Ret results)
  | Panic msg =>
      ∃ out,
        cmd_Output env (lineGrepArgv path searchWords excludeDirs) = CmdOk out ∧
        (parseGrepOutput rangeMap out path).2 = Panic msg
  | Fatal _ => False
  end.
Proof.
  rewrite line_grep_unfold.
  destruct (cmd_Output env _) as [out|code stderr|err] eqn:Hout.
  - destruct (parseGrepOutput rangeMap out path) as [t [r|m|m]] eqn:Hp; cbn.
    + right. exists out. by rewrite Hp.
    + exists out. by rewrite Hp.
    + pose proof (line_grep_unfold rangeMap env path searchWords excludeDirs) as Hu.
      rewrite Hout, Hp in Hu.
      destruct (grep_trace rangeMap env path searchWords excludeDirs)
        as (tg & rg & Hg & _ & Hnf).
      rewrite Hg in Hu. cbn in Hu. injection Hu as _ ->. by destruct (Hnf m).
  - unfold GrepErrorCodeNoMatches. case_decide as Hc; cbn.
    + left. split; [done|]. subst code. by exists stderr.
    + split; [done|]. left. by exists code, stderr.
  - cbn. split; [done|]. right. by exists err.
Qed.

Lemma emit_bind_ret {A} e (k : M A) t x :
  (emit e;; k) = (t, Ret x) → ∃ t', k = (t', Ret x).
Proof. destruct k as [t' o]. intros [= _ ->]. by exists t'. Qed.

Lemma grep_error_no_results env path searchWords excludeDirs t results e :
  grep rangeMap env path searchWords excludeDirs = (t, Ret (results, Some e)) →
  results = [].
Proof.
  rewrite line_grep_unfold. unfold Println.
  intros (t1 & (t2 & Hk)%emit_bind_ret)%emit_bind_ret. revert Hk.
  destruct (cmd_Output env _) as [out|code stderr|err].
  - by destruct (parseGrepOutput rangeMap out path) as [t' [r'|m|m]].
  - case_decide; [done|]. by intros [= _ <- _].
  - by intros [= _ <- _].
Qed.

(** X11: once the repository is cloned, [analyzeRepo] ends as the [grep]
    over the clone ends: the same results, the same error, the same
    panic; removing the directory changes none of them. *)
Theorem analyzeRepo_result_is_grep env r searchWords excludeDirs dir :
  ioutil_TempDir env = inl dir →
  cmd_Run env (gitCloneArgv r dir) = None →
  (analyzeRepo rangeMap env r searchWords excludeDirs).2
  = (grep rangeMap env dir searchWords excludeDirs).2.
Proof.
  intros Ht Hc. unfold analyzeRepo. rewrite (cloneRepo_ok _ _ _ Ht Hc).
  destruct (grep_trace rangeMap env dir searchWords excludeDirs)
    as (tg & rg & Hg & _ & Hnf).
  destruct (removeDir_trace env dir) as (logged & Hrm & _).
  unfold mbind at 1, M_bind at 1. rewrite Hg, Hrm.
  destruct rg as [[res [e|]]|msg|msg]; [|done..].
  by rewrite (grep_error_no_results _ _ _ _ _ _ _ Hg).
Qed.
End LineModeSearchMore.

Lemma analyzeRepo_result_is_grep_witness :
  (LineMode.analyzeRepo map_to_list (exampleEnv (CmdOk (exampleOutput 0)))
     {| Name := "first"; Url := "https://example.org/first.git"; ExcludeDirs := [] |}
     ["fell"] [".git"]).2
  = (LineMode.grep map_to_list (exampleEnv (CmdOk (exampleOutput 0))) "/tmp/clone1"
       ["fell"] [".git"]).2.
Proof.
  apply (analyzeRepo_result_is_grep map_to_list (exampleEnv (CmdOk (exampleOutput 0)))
           _ ["fell"] [".git"] "/tmp/clone1"); reflexivity.
Defined.

(** ** More on the run over all repositories *)

Lemma wrap_add_r a b : wrap (a + wrap b) = wrap (a + b).
Proof. by rewrite (Z.add_comm a), wrap_add_l, Z.add_comm. Qed.

Lemma int_sum_concat (ls : list (list Z)) :
  int_sum (int_sum <$> ls) = int_sum (concat ls).
Proof.
  induction ls as [|l ls IH]; [done|].
  rewrite fmap_cons. cbn [concat]. unfold int_sum in *. rewrite Zsum_cons.
  assert (Zsum (l ++ concat ls) = Zsum l + Zsum (concat ls)) as ->.
  { clear. induction l as [|x l IH]; [done|].
    rewrite <-app_comm_cons, !Zsum_cons, IH. lia. }
  rewrite wrap_add_l. rewrite <-(wrap_add_r (Zsum l)), IH, wrap_add_r. done.
Qed.

Section LineModeRunMore.
Import LineMode.
Variable rangeMap : gmap string Z → list (string * Z).
Variable sort_Slice :
  list Application → (Application → Application → bool) → list Application.
Hypothesis sort_Slice_perm : ∀ l less, sort_Slice l less ≡ₚ l.

Lemma unitOfWork_returned w cfg repo i tu app :
  unitOfWork rangeMap w cfg repo i = (tu, Ret app) →
  appName app = Name repo ∧
  ∃ at_i ta,
    Repositories cfg !! i = Some at_i ∧
    analyzeRepo rangeMap (unit_env w i) repo (SearchWords cfg)
      (appendExcludeDirs w cfg i (ExcludeDirs at_i)) = (ta, Ret (GrepResults app, None)).
Proof using Type.
  unfold unitOfWork, index. destruct (Repositories cfg !! i) as [at_i|]; [|done].
  rewrite mret_bind.
  destruct (analyzeRepo _ _ _ _ _) as [ta [[res [e|]]|msg|msg]] eqn:Ha; cbn; try done.
  intros [= <- <-]. split; [done|]. by exists at_i, ta.
Qed.



Lemma main_unfold w cfg completion :
  os_loadConfig w = inl cfg →
  main rangeMap sort_Slice w completion =
    (apps ← runUnits rangeMap w cfg completion
              (replicate (length (Repositories cfg)) zeroApplication);
     let report :=
       {| TotalApplications := Z.of_nat (length (Repositories cfg));
          rfSearchWords := SearchWords cfg;
          TotalCountSum := int_sum (CountSum <$> apps);
          Applications :=
            sort_Slice apps (λ a b, bool_decide (CountSum a > CountSum b)) |} in
     match ioutil_WriteFile w ResultFilePath report with
     | Some err => log_Fatal ("unable to save result: %w" +:+ err)
     | None => mret report
     end).
Proof using Type.
  intros Hcfg. unfold main. rewrite Hcfg. apply mbind_ext. intros apps.
  unfold sortOnAppCountSumDesc, writeResult. cbn [TotalApplications rfSearchWords
    TotalCountSum Applications].
  by rewrite (calculateTotalCountSum_int_sum
                {| TotalApplications := Z.of_nat (length (Repositories cfg));
                   rfSearchWords := SearchWords cfg;
                   TotalCountSum := 0;
                   Applications := apps |}).
Qed.

(** X13: after a complete run the report names every configured
    repository exactly once: the names of its applications are a
    permutation of the names in the configuration, their number is
    [TotalApplications], and the search words are those of the
    configuration. *)
Theorem main_report_lists_repositories w completion trace report cfg :
  os_loadConfig w = inl cfg →
  completion ≡ₚ seq 0 (length (Repositories cfg)) →
  main rangeMap sort_Slice w completion = (trace, Ret report) →
  appName <$> Applications report ≡ₚ Name <$> Repositories cfg ∧
  TotalApplications report = Z.of_nat (length (Applications report)) ∧
  rfSearchWords report = SearchWords cfg.
Proof using sort_Slice_perm.
  intros Hcfg Hperm. rewrite (main_unfold _ _ _ Hcfg).
  destruct (runUnits _ _ _ _ _) as [t [apps|msg|msg]] eqn:Hrun; cbn; try done.
  destruct (ioutil_WriteFile w ResultFilePath _) as [e|]; cbn; [done|].
  intros [= <- <-]. cbn.
  destruct (runUnits_by_index _ _ _ _ _ _ _ Hrun) as (Hlen & _ & Hdone).
  rewrite length_replicate in Hlen, Hdone.
  assert (appName <$> apps = Name <$> Repositories cfg) as Hnames.
  { apply list_eq. intros i. rewrite !list_lookup_fmap.
    destruct (Repositories cfg !! i) as [repo|] eqn:Hrepo.
    - pose proof (lookup_lt_Some _ _ _ Hrepo) as Hlt.
      destruct (Hdone i repo) as (tu & app & Hu & ->); [|done|done|].
      { rewrite Hperm. apply elem_of_seq. lia. }
      apply unitOfWork_returned in Hu as [Hname _]. simpl. by rewrite Hname.
    - apply lookup_ge_None in Hrepo. rewrite lookup_ge_None_2; [done|lia]. }
  split_and!.
  - by rewrite sort_Slice_perm, Hnames.
  - by rewrite sort_Slice_perm, Hlen.
  - done.
Qed.

(** X14: the total of the report is the [int] sum of the counts of all
    results of all its applications. *)
Theorem main_total_is_sum_of_all_matches w completion trace report :
  main rangeMap sort_Slice w completion = (trace, Ret report) →
  TotalCountSum report
  = int_sum (Count <$> concat (GrepResults <$> Applications report)).
Proof using sort_Slice_perm.
  intros (cfg & t & apps & Hcfg & Hrun & Htotal & Happs)%main_report.
  assert (Forall (λ a, CountSum a = int_sum (Count <$> GrepResults a)) apps) as Heach.
  { eapply runUnits_slots; [| |exact Hrun].
    - intros repo i tu app Hu. rewrite (unitOfWork_countSum _ _ _ _ _ _ _ Hu).
      apply sumTotalCountForGrepResults_int_sum.
    - apply Forall_replicate. reflexivity. }
  rewrite Htotal, Happs.
  assert (CountSum <$> apps = int_sum <$> ((λ a, Count <$> GrepResults a) <$> apps)) as ->.
  { rewrite <-list_fmap_compose. apply Forall_fmap_ext_1.
    eapply Forall_impl; [exact Heach|]. by intros a ->. }
  rewrite int_sum_concat. unfold int_sum. f_equal. apply Zsum_Permutation.
  assert (∀ l : list Application,
            concat ((λ a, Count <$> GrepResults a) <$> l)
            = Count <$> concat (GrepResults <$> l)) as Hflat.
  { induction l as [|a l IH]; [done|]. cbn. by rewrite fmap_app, IH. }
  rewrite Hflat. apply fmap_Permutation.
  by rewrite sort_Slice_perm.
Qed.

End LineModeRunMore.

Lemma main_report_lists_repositories_witness :
  ∃ trace report,
    LineMode.main map_to_list mergeSortSlice exampleWorld [1; 0]%nat = (trace, Ret report) ∧
    appName <$> Applications report ≡ₚ Name <$> Repositories exampleConfig ∧
    TotalApplications report = Z.of_nat (length (Applications report)) ∧
    rfSearchWords report = SearchWords exampleConfig.
Proof.
  destruct (LineMode.main map_to_list mergeSortSlice exampleWorld [1; 0]%nat)
    as [trace [report|msg|msg]] eqn:Hrun; try (by vm_compute in Hrun).
  exists trace, report. split; [reflexivity|].
  apply (main_report_lists_repositories map_to_list mergeSortSlice
           (λ l less, mergeSortSlice_perm l less)
           exampleWorld [1; 0]%nat trace report exampleConfig eq_refl);
    [apply Permutation_swap | exact Hrun].
Defined.

Lemma main_total_is_sum_of_all_matches_witness :
  ∃ trace report,
    LineMode.main map_to_list mergeSortSlice exampleWorld [1; 0]%nat = (trace, Ret report) ∧
    TotalCountSum report
    = int_sum (Count <$> concat (GrepResults <$> Applications report)).
Proof.
  destruct (LineMode.main map_to_list mergeSortSlice exampleWorld [1; 0]%nat)
    as [trace [report|msg|msg]] eqn:Hrun; try (by vm_compute in Hrun).
  exists trace, report. split; [reflexivity|].
  exact (main_total_is_sum_of_all_matches map_to_list mergeSortSlice
           (λ l less, mergeSortSlice_perm l less)
           exampleWorld [1; 0]%nat trace report Hrun).
Defined.


(** ** More on the count variant *)

Section CountModeMore.
Import CountMode.

Lemma countModeLine_split path count :
  Contains path ":" = false → Contains count ":" = false →
  Split (path +:+ ":" +:+ count) ":" = [path; count].
Proof. intros Hp Hc. by apply Split_colon_two. Qed.

(** X16: the count variant shares the defect of [removeBasePath]: a line
    with a numeric count other than ["0"] whose path does not contain
    [pathGrepped/] makes the parser panic, whatever was parsed before and
    whatever follows. *)
Theorem parseLines_outside_pathGrepped_panics path count v rest pathGrepped results :
  path ≠ "" → Contains path ":" = false → Contains count ":" = false →
  count ≠ "0" → Atoi count = inl v →
  Contains path (pathGrepped +:+ "/") = false →
  parseLines ((path +:+ ":" +:+ count) :: rest) pathGrepped results
  = panic "index out of range".
Proof.
  intros Hne Hp Hc Hz Ha Hout.
  rewrite (parseLines_fields _ _ _ _ _ _ _ (countModeLine_split _ _ Hp Hc)).
  rewrite decide_False by done.
  assert (count ≠ "") as Hce by (by intros ->).
  rewrite decide_False by done.
  unfold isNoMatches. rewrite bool_decide_eq_false_2 by done.
  by rewrite Ha, (removeBasePath_outside _ _ Hout).
Qed.

(** X17: take a line [path:count] with one colon, a path that contains
    [pathGrepped/] and a count that [Atoi] accepts.  The line is dropped
    when the count is the text ["0"]; with any other numeral it yields
    one result with the value of the count, so [00], [+0] or [-0] give a
    result with count 0. *)
Theorem parseGrepOutput_zero_by_text path count v pathGrepped :
  Contains path ":" = false → Contains count ":" = false →
  Contains (path +:+ ":" +:+ count) newline = false →
  Contains path (pathGrepped +:+ "/") = true →
  Atoi count = inl v →
  (count = "0" → parseGrepOutput (path +:+ ":" +:+ count) pathGrepped = mret []) ∧
  (count ≠ "0" →
   ∃ name,
     removeBasePath path pathGrepped = mret name ∧
     parseGrepOutput (path +:+ ":" +:+ count) pathGrepped
     = mret [{| FileName := name; Count := v |}]).
Proof.
  intros Hp Hc Hnl%Contains_false Hin Ha. unfold parseGrepOutput, newline in *.
  rewrite (Split_no_sep _ _ _ Hnl).
  rewrite (parseLines_fields _ _ _ _ _ _ _ (countModeLine_split _ _ Hp Hc)).
  assert (path ≠ "") as Hne.
  { intros ->. revert Hin. unfold Contains. simpl. by destruct pathGrepped. }
  assert (count ≠ "") as Hce by (by intros ->).
  rewrite !decide_False by done. unfold isNoMatches. split.
  - intros ->. by rewrite bool_decide_eq_true_2.
  - intros Hz. rewrite bool_decide_eq_false_2 by done. rewrite Ha.
    apply removeBasePath_inside in Hin as [name Hname]. exists name.
    split; [done|]. by rewrite Hname, mret_bind.
Qed.

Lemma emitsCount_fields line field0 field1 more :
  Split line ":" = field0 :: field1 :: more →
  emitsCount line = bool_decide (field1 ≠ "" ∧ field1 ≠ "0").
Proof. unfold emitsCount, countField. by intros ->. Qed.

(** On well-formed output whose counts are all numerals, the loop
    appends one result per emitting line, in the order of the lines. *)
Lemma parseLines_well_formed lines pathGrepped results :
  Forall (countModeLine pathGrepped) lines →
  (∀ line count,
     line ∈ lines → countField line = Some count → count ≠ "" →
     ∃ v, Atoi count = inl v) →
  ∃ new,
    parseLines lines pathGrepped results = mret (results ++ new) ∧
    Forall2 (λ line r,
               ∃ path count,
                 line = path +:+ ":" +:+ count ∧
                 removeBasePath path pathGrepped = mret (FileName r) ∧
                 Atoi count = inl (Count r))
      (filter (λ line, emitsCount line = true) lines) new.
Proof.
  revert results; induction lines as [|line rest IH]; intros results Hwf Hnum.
  { exists []. by rewrite app_nil_r. }
  apply Forall_cons in Hwf as [Hline Hwf].
  assert (∀ line count,
            line ∈ rest → countField line = Some count → count ≠ "" →
            ∃ v, Atoi count = inl v) as Hnum'.
  { intros l c Hl. apply Hnum. by right. }
  destruct Hline as [->|(path & count & -> & Hp & Hc & Hin)].
  { rewrite parseLines_empty_line, filter_cons_False by done. by apply IH. }
  pose proof (countModeLine_split _ _ Hp Hc) as Hs.
  rewrite (parseLines_fields _ _ _ _ _ _ _ Hs).
  assert (path ≠ "") as Hne.
  { intros ->. revert Hin. unfold Contains. simpl. by destruct pathGrepped. }
  rewrite decide_False by done.
  destruct (decide (count = "")) as [Hce|Hce].
  { rewrite filter_cons_False; [by apply IH|].
    rewrite (emitsCount_fields _ _ _ _ Hs), bool_decide_eq_false_2; [done|].
    by intros [? _]. }
  unfold isNoMatches. destruct (decide (count = "0")) as [Hz|Hz].
  { rewrite bool_decide_eq_true_2 by done.
    rewrite filter_cons_False; [by apply IH|].
    rewrite (emitsCount_fields _ _ _ _ Hs), bool_decide_eq_false_2; [done|].
    by intros [_ ?]. }
  rewrite bool_decide_eq_false_2 by done.
  destruct (Hnum (path +:+ ":" +:+ count) count) as [v Hv]; [left | | done |].
  { unfold countField. by rewrite Hs. }
  rewrite Hv. apply removeBasePath_inside in Hin as [name Hname].
  rewrite Hname, mret_bind.
  destruct (IH (results ++ [{| FileName := name; Count := v |}]) Hwf Hnum')
    as (new & -> & Hnew).
  exists ({| FileName := name; Count := v |} :: new). split.
  - by rewrite <-app_assoc.
  - rewrite filter_cons_True
      by (rewrite (emitsCount_fields _ _ _ _ Hs); by apply bool_decide_eq_true).
    constructor; [|done]. by exists path, count.
Qed.

(** X19: on [grep --count] output for [pathGrepped] whose non-empty
    counts are all numerals, the count variant neither panics nor logs:
    it returns one result per line with a count other than the empty
    text and ["0"], in the order of the lines, each with the name
    [removeBasePath] gives for the path and the value of the count.
    Nothing is merged. *)
Theorem parseGrepOutput_count_results out pathGrepped :
  Forall (countModeLine pathGrepped) (Split out newline) →
  (∀ line count,
     line ∈ Split out newline → countField line = Some count → count ≠ "" →
     ∃ v, Atoi count = inl v) →
  ∃ results,
    parseGrepOutput out pathGrepped = mret results ∧
    Forall2 (λ line r,
               ∃ path count,
                 line = path +:+ ":" +:+ count ∧
                 removeBasePath path pathGrepped = mret (FileName r) ∧
                 Atoi count = inl (Count r))
      (filter (λ line, emitsCount line = true) (Split out newline)) results.
Proof.
  intros Hwf Hnum.
  destruct (parseLines_well_formed _ _ [] Hwf Hnum) as (new & Hrun & Hnew).
  exists new. by split.
Qed.
End CountModeMore.

Section CountModeRun.
Import CountMode.

Lemma count_unitOfWork_name w cfg repo i tu app :
  unitOfWork w cfg repo i = (tu, Ret app) →
  appName app = Name repo ∧
  CountSum app = sumTotalCountForGrepResults (GrepResults app).
Proof.
  unfold unitOfWork, index. destruct (Repositories cfg !! i) as [at_i|]; [|done].
  rewrite mret_bind.
  destruct (analyzeRepo _ _ _ _) as [ta [[res [e|]]|msg|msg]]; cbn; try done.
  by intros [= <- <-].
Qed.

Lemma count_runUnits_by_index w cfg completion slots t apps :
  runUnits w cfg completion slots = (t, Ret apps) →
  length apps = length slots ∧
  (∀ i, i ∉ completion → apps !! i = slots !! i) ∧
  (∀ i repo,
     i ∈ completion → Repositories cfg !! i = Some repo → (i < length slots)%nat →
     ∃ tu app, unitOfWork w cfg repo i = (tu, Ret app) ∧ apps !! i = Some app).
Proof.
  revert slots t. induction completion as [|j rest IH]; intros slots t; cbn [runUnits].
  { intros [= <- <-]. split_and!; [done | done |]. intros i repo Hi. by apply elem_of_nil in Hi. }
  destruct (Repositories cfg !! j) as [repo_j|] eqn:Hj.
  - destruct (unitOfWork w cfg repo_j j) as [tu [app|msg|msg]] eqn:Hu; cbn; try done.
    destruct (runUnits _ _ _ _) as [t' o'] eqn:Hrest. intros [= <- ->].
    destruct (IH _ _ Hrest) as (Hlen & Hother & Hdone).
    rewrite length_insert in Hlen, Hdone. split_and!; [done | |].
    + intros i Hi. apply not_elem_of_cons in Hi as [Hij Hi].
      rewrite (Hother i Hi). by apply list_lookup_insert_ne.
    + intros i repo Hi Hrepo Hlt.
      destruct (decide (i ∈ rest)) as [Hin|Hnin]; [by eapply Hdone|].
      apply elem_of_cons in Hi as [->|Hi]; [|done].
      rewrite Hj in Hrepo. injection Hrepo as <-.
      exists tu, app. split; [done|].
      rewrite (Hother j Hnin). by apply list_lookup_insert_eq.
  - intros Hrest. destruct (IH _ _ Hrest) as (Hlen & Hother & Hdone).
    split_and!; [done | |].
    + intros i Hi. apply not_elem_of_cons in Hi as [_ Hi]. by apply Hother.
    + intros i repo Hi Hrepo Hlt.
      apply elem_of_cons in Hi as [->|Hi]; [congruence | by eapply Hdone].
Qed.

(** X20: the count variant writes the applications in the order of the
    configuration, whatever the completion order, with the same total as
    the line variant computes: the [int] sum of their sums. *)
Theorem count_main_keeps_config_order w completion trace report cfg :
  os_loadConfig w = inl cfg →
  completion ≡ₚ seq 0 (length (Repositories cfg)) →
  main w completion = (trace, Ret report) →
  appName <$> Applications report = Name <$> Repositories cfg ∧
  TotalApplications report = Z.of_nat (length (Repositories cfg)) ∧
  TotalCountSum report = int_sum (CountSum <$> Applications report).
Proof.
  intros Hcfg Hperm. unfold main. rewrite Hcfg.
  destruct (runUnits _ _ _ _) as [t [apps|msg|msg]] eqn:Hrun; cbn; try done.
  destruct (writeResult w _ _); cbn; [done|].
  intros [= <- <-]. cbn.
  destruct (count_runUnits_by_index _ _ _ _ _ _ Hrun) as (Hlen & _ & Hdone).
  rewrite length_replicate in Hlen, Hdone. split_and!; [|done|].
  - apply list_eq. intros i. rewrite !list_lookup_fmap.
    destruct (Repositories cfg !! i) as [repo|] eqn:Hrepo.
    + pose proof (lookup_lt_Some _ _ _ Hrepo) as Hlt.
      destruct (Hdone i repo) as (tu & app & Hu & ->); [|done|done|].
      { rewrite Hperm. apply elem_of_seq. lia. }
      apply count_unitOfWork_name in Hu as [Hname _]. simpl. by rewrite Hname.
    + apply lookup_ge_None in Hrepo. rewrite lookup_ge_None_2; [done|lia].
  - exact (calculateTotalCountSum_int_sum
             {| TotalApplications := Z.of_nat (length (Repositories cfg));
                rfSearchWords := SearchWords cfg;
                TotalCountSum := 0;
                Applications := apps |}).
Qed.
End CountModeRun.

Lemma parseLines_outside_pathGrepped_panics_witness :
  CountMode.parseLines ["other/file.txt:3"] "repo" [] = panic "index out of range".
Proof.
  apply (parseLines_outside_pathGrepped_panics "other/file.txt" "3" 3 [] "repo" []);
    (reflexivity || discriminate).
Defined.

Lemma parseGrepOutput_zero_by_text_witness :
  ("00" = "0" → CountMode.parseGrepOutput ("r/a.go" +:+ ":" +:+ "00") "r" = mret []) ∧
  ("00" ≠ "0" →
   ∃ name,
     removeBasePath "r/a.go" "r" = mret name ∧
     CountMode.parseGrepOutput ("r/a.go" +:+ ":" +:+ "00") "r"
     = mret [{| FileName := name; Count := 0 |}]).
Proof.
  apply (parseGrepOutput_zero_by_text "r/a.go" "00" 0 "r"); reflexivity.
Defined.

Lemma parseGrepOutput_count_results_witness :
  ∃ results,
    CountMode.parseGrepOutput exampleZeroCountOutput "/tmp/clone1" = mret results ∧
    Forall2 (λ line r,
               ∃ path count,
                 line = path +:+ ":" +:+ count ∧
                 removeBasePath path "/tmp/clone1" = mret (FileName r) ∧
                 Atoi count = inl (Count r))
      (filter (λ line, emitsCount line = true) (Split exampleZeroCountOutput newline))
      results.
Proof.
  assert (Split exampleZeroCountOutput newline
          = ["/tmp/clone1/a.go:3"; "/tmp/clone1/b.go:0"; "/tmp/clone1/c.go:12"; ""])
    as Hlines by (by vm_compute).
  apply (parseGrepOutput_count_results exampleZeroCountOutput "/tmp/clone1");
    rewrite Hlines.
  - repeat (constructor; [count_mode_line|]). constructor.
  - intros line count Hin Hf _.
    repeat (apply elem_of_cons in Hin as [->|Hin]);
      try (by apply elem_of_nil in Hin);
      vm_compute in Hf; try discriminate;
      injection Hf as <-; eexists; vm_compute; reflexivity.
Defined.

Lemma count_main_keeps_config_order_witness :
  ∃ trace report,
    CountMode.main exampleCountWorld [1; 0]%nat = (trace, Ret report) ∧
    appName <$> Applications report = Name <$> Repositories exampleConfig ∧
    TotalApplications report = Z.of_nat (length (Repositories exampleConfig)) ∧
    TotalCountSum report = int_sum (CountSum <$> Applications report).
Proof.
  destruct (CountMode.main exampleCountWorld [1; 0]%nat)
    as [trace [report|msg|msg]] eqn:Hrun; try (by vm_compute in Hrun).
  exists trace, report. split; [reflexivity|].
  apply (count_main_keeps_config_order exampleCountWorld [1; 0]%nat trace report
           exampleConfig eq_refl); [apply Permutation_swap | exact Hrun].
Defined.

(** ** [cloneRepo] and the exit of a failed run *)

(** X18: what [cloneRepo] returns is consistent: it returns a cleanup
    function exactly when it returns no error; with an error, the
    temporary directory could not be created and no command was run;
    without one, the path is the directory that was created, and the
    cleanup function calls [os.RemoveAll] on this very directory and
    returns normally even when the removal fails (the failure is only
    logged). *)
Theorem cloneRepo_contract env r trace dir cleanup err :
  cloneRepo env r = (trace, Ret (dir, cleanup, err)) →
  (err = None ↔ is_Some cleanup) ∧
  (∀ e, err = Some e →
        ioutil_TempDir env = inr e ∧ dir = "" ∧ trace = [EvTempDir]) ∧
  (∀ c, cleanup = Some c →
        ioutil_TempDir env = inl dir ∧
        cmd_Run env (gitCloneArgv r dir) = None ∧
        ∃ logged,
          c = (EvRemoveAll dir :: logged, Ret tt) ∧
          Forall (λ ev, isLog ev = true) logged).
Proof.
  destruct (ioutil_TempDir env) as [d|e0] eqn:Ht.
  - destruct (cmd_Run env (gitCloneArgv r d)) as [e1|] eqn:Hc.
    + destruct (cloneRepo_clone_fails _ r _ _ Ht Hc) as (logged & -> & _). done.
    + rewrite (cloneRepo_ok _ _ _ Ht Hc). intros [= <- <- <- <-]. split_and!.
      * split; [by eexists | done].
      * done.
      * intros c [= <-]. split_and!; [done | done |]. apply removeDir_trace.
  - rewrite (cloneRepo_no_tempdir _ r _ Ht). intros [= <- <- <- <-]. split_and!.
    + split; [done | by intros [? ?]].
    + by intros e [= <-].
    + done.
Qed.

Lemma cloneRepo_contract_witness :
  ∃ trace dir cleanup err,
    cloneRepo (exampleEnv (CmdOk ""))
      {| Name := "first"; Url := "https://example.org/first.git"; ExcludeDirs := [] |}
    = (trace, Ret (dir, cleanup, err)) ∧
    (err = None ↔ is_Some cleanup) ∧
    dir = "/tmp/clone1".
Proof.
  destruct (cloneRepo (exampleEnv (CmdOk ""))
              {| Name := "first"; Url := "https://example.org/first.git";
                 ExcludeDirs := [] |})
    as [trace [[[dir cleanup] err]|msg|msg]] eqn:Hrun; try (by vm_compute in Hrun).
  exists trace, dir, cleanup, err.
  pose proof (proj1 (cloneRepo_contract _ _ _ _ _ _ Hrun)) as Hiff.
  split_and!; [reflexivity | exact Hiff |].
  vm_compute in Hrun. by injection Hrun as _ <- _ _.
Defined.

Section LineModeFatal.
Import LineMode.
Variable rangeMap : gmap string Z → list (string * Z).
Variable sort_Slice :
  list Application → (Application → Application → bool) → list Application.

Lemma unitOfWork_error w cfg repo i ta results e :
  Repositories cfg !! i = Some repo →
  analyzeRepo rangeMap (unit_env w i) repo (SearchWords cfg)
    (appendExcludeDirs w cfg i (ExcludeDirs repo)) = (ta, Ret (results, Some e)) →
  (unitOfWork rangeMap w cfg repo i).2
  = Fatal ("failed on repo '" +:+ Name repo +:+ "': " +:+ e).
Proof.
  intros Hrepo Ha. unfold unitOfWork, index. rewrite Hrepo, mret_bind, Ha. done.
Qed.

Lemma runUnits_first_failure w cfg finished i rest slots repo msg :
  (∀ j repo_j,
     j ∈ finished → Repositories cfg !! j = Some repo_j →
     ∃ tu app, unitOfWork rangeMap w cfg repo_j j = (tu, Ret app)) →
  Repositories cfg !! i = Some repo →
  (unitOfWork rangeMap w cfg repo i).2 = Fatal msg →
  (runUnits rangeMap w cfg (finished ++ i :: rest) slots).2 = Fatal msg.
Proof.
  intros Hfin Hrepo Hfail. revert slots.
  induction finished as [|j finished IH]; intros slots; cbn [runUnits app].
  - rewrite Hrepo. destruct (unitOfWork rangeMap w cfg repo i) as [tu o].
    simpl in Hfail. by subst o.
  - destruct (Repositories cfg !! j) as [repo_j|] eqn:Hj.
    + destruct (Hfin j repo_j) as (tu & app & ->); [left | done |].
      assert (∀ j' r',
                j' ∈ finished → Repositories cfg !! j' = Some r' →
                ∃ tu app, unitOfWork rangeMap w cfg r' j' = (tu, Ret app)) as Hfin'.
      { intros j' r' Hj'. apply Hfin. by right. }
      specialize (IH Hfin' (<[j := app]> slots)).
      unfold mbind, M_bind.
      by destruct (runUnits rangeMap w cfg (finished ++ i :: rest) _) as [t' o'].
    + apply IH. intros j' r' Hj'. apply Hfin. by right.
Qed.

(** X21: when the analysis of a repository, run with the exclude dirs
    its unit of work reads from the slice [append] gave it (which may
    hold what other units wrote there), returns an error, and the units
    that ended before it returned normally, [main] exits the process
    with a message that names this repository and carries the error; no
    report is written, whatever the remaining units would have done. *)
Theorem main_fatal_names_repository w cfg finished i rest repo ta results e :
  os_loadConfig w = inl cfg →
  (∀ j repo_j,
     j ∈ finished → Repositories cfg !! j = Some repo_j →
     ∃ tu app, unitOfWork rangeMap w cfg repo_j j = (tu, Ret app)) →
  Repositories cfg !! i = Some repo →
  analyzeRepo rangeMap (unit_env w i) repo (SearchWords cfg)
    (appendExcludeDirs w cfg i (ExcludeDirs repo)) = (ta, Ret (results, Some e)) →
  (main rangeMap sort_Slice w (finished ++ i :: rest)).2
  = Fatal ("failed on repo '" +:+ Name repo +:+ "': " +:+ e).
Proof.
  intros Hcfg Hfin Hrepo Ha. unfold main. rewrite Hcfg.
  pose proof (runUnits_first_failure w cfg finished i rest
                (replicate (length (Repositories cfg)) zeroApplication) repo _
                Hfin Hrepo (unitOfWork_error _ _ _ _ _ _ _ Hrepo Ha)) as Hrun.
  destruct (runUnits _ _ _ _ _) as [t o]. simpl in Hrun. by subst o.
Qed.
End LineModeFatal.

Lemma main_fatal_names_repository_witness :
  (LineMode.main map_to_list mergeSortSlice exampleFailingWorld ([0%nat] ++ 1%nat :: [])).2
  = Fatal ("failed on repo '" +:+ "second" +:+ "': "
           +:+ "unable to execute grep command: grep: Unmatched [").
Proof.
  eapply (main_fatal_names_repository map_to_list mergeSortSlice exampleFailingWorld
            exampleConfig [0%nat] 1%nat []
            {| Name := "second"; Url := "https://example.org/second.git";
               ExcludeDirs := ["vendor"] |}).
  - reflexivity.
  - intros j repo_j Hj Hr.
    apply elem_of_cons in Hj as [->|Hj]; [|by apply elem_of_nil in Hj].
    vm_compute in Hr. injection Hr as <-. eexists _, _. by vm_compute.
  - reflexivity.
  - by vm_compute.
Defined.

(** ** The slice of exclude dirs the units of work share *)

Lemma append_writes_length tail xs : length (append_writes tail xs) = length tail.
Proof.
  unfold append_writes. case_decide; [|done].
  rewrite length_app, length_drop. lia.
Qed.

(** What the shared array holds after the appends of the units [js]: at
    each position what it held before, or the exclude dir at the same
    position of a unit of [js] whose exclude dirs fit. *)
Lemma fold_append_writes cfg js tail :
  let tail' :=
    fold_left
      (λ tail j,
         match Repositories cfg !! j with
         | Some r => append_writes tail (ExcludeDirs r)
         | None => tail
         end) js tail in
  length tail' = length tail ∧
  ∀ k d,
    tail' !! k = Some d →
    tail !! k = Some d ∨
    ∃ j r,
      j ∈ js ∧ Repositories cfg !! j = Some r ∧
      (length (ExcludeDirs r) ≤ length tail)%nat ∧ ExcludeDirs r !! k = Some d.
Proof.
  revert tail. induction js as [|j js IH]; intros tail; cbn [fold_left].
  { split; [done|]. intros k d Hk. by left. }
  destruct (Repositories cfg !! j) as [r|] eqn:Hj.
  - destruct (IH (append_writes tail (ExcludeDirs r))) as [Hlen Hread].
    rewrite append_writes_length in Hlen. split; [done|].
    intros k d Hk. destruct (Hread k d Hk) as [Hw|(j' & r' & Hin & Hr' & Hfit & Hd)].
    + unfold append_writes in Hw. case_decide as Hfit; [|by left].
      destruct (decide (k < length (ExcludeDirs r))%nat) as [Hlt|Hge].
      * rewrite lookup_app_l in Hw by done. right. exists j, r.
        split_and!; [left | done | done | done].
      * rewrite lookup_app_r, lookup_drop in Hw by lia. left.
        rewrite <-Hw. f_equal. lia.
    + rewrite append_writes_length in Hfit. right. exists j', r'.
      split_and!; [by right | done | done | done].
  - destruct (IH tail) as [Hlen Hread]. split; [done|].
    intros k d Hk. destruct (Hread k d Hk) as [?|(j' & r' & Hin & ?)]; [by left|].
    right. exists j', r'. split; [by right | done].
Qed.

(** X22: the exclude dirs a unit of work searches with are those of the
    configuration followed by as many entries as its repository has
    exclude dirs; each of these entries is the repository's own at that
    position or the one, at the same position, of a repository whose
    unit appended in between and whose exclude dirs fit the room of the
    shared array.  They are the repository's own when the array has no
    room for them or no other unit appended in between; and when one
    unit with at least as many exclude dirs, all fitting the room,
    appended in between, they are that unit's. *)
Theorem appendExcludeDirs_shared w cfg i own :
  (∃ tail,
     appendExcludeDirs w cfg i own = cfgExcludeDirs cfg ++ tail ∧
     length tail = length own ∧
     ∀ k d,
       tail !! k = Some d →
       own !! k = Some d ∨
       ∃ j r,
         j ∈ appends_between w i ∧ Repositories cfg !! j = Some r ∧
         (length (ExcludeDirs r) ≤ spare_ExcludeDirs w)%nat ∧
         ExcludeDirs r !! k = Some d) ∧
  ((spare_ExcludeDirs w < length own)%nat ∨ appends_between w i = [] →
   appendExcludeDirs w cfg i own = cfgExcludeDirs cfg ++ own) ∧
  (∀ j r,
     appends_between w i = [j] → Repositories cfg !! j = Some r →
     (length own ≤ length (ExcludeDirs r) ≤ spare_ExcludeDirs w)%nat →
     appendExcludeDirs w cfg i own
     = cfgExcludeDirs cfg ++ take (length own) (ExcludeDirs r)).
Proof.
  unfold appendExcludeDirs.
  set (tail0 := append_writes (replicate (spare_ExcludeDirs w) "") own).
  assert (length tail0 = spare_ExcludeDirs w) as Hlen0.
  { subst tail0. by rewrite append_writes_length, length_replicate. }
  split_and!.
  - destruct (fold_append_writes cfg (appends_between w i) tail0) as [Hlen Hread].
    cbv zeta in Hlen, Hread. eexists. split; [reflexivity|].
    unfold append_reads. rewrite Hlen, Hlen0. case_decide as Hfit.
    2: { split; [done|]. intros k d Hk. by left. }
    split; [rewrite length_take, Hlen, Hlen0; lia|].
    intros k d [Hk Hlt]%lookup_take_Some.
    destruct (Hread k d Hk) as [H0|(j & r & Hin & Hr & Hrfit & Hd)].
    + left. subst tail0. unfold append_writes in H0.
      rewrite length_replicate, decide_True in H0 by done.
      by rewrite lookup_app_l in H0.
    + right. exists j, r. by rewrite Hlen0 in Hrfit.
  - intros [Hroom|Hnone].
    + destruct (fold_append_writes cfg (appends_between w i) tail0) as [Hlen _].
      cbv zeta in Hlen. unfold append_reads. rewrite Hlen, Hlen0.
      by rewrite decide_False by lia.
    + rewrite Hnone. cbn [fold_left]. unfold append_reads. rewrite Hlen0.
      case_decide as Hfit; [|done]. subst tail0. unfold append_writes.
      rewrite length_replicate, decide_True by done.
      by rewrite take_app_length.
  - intros j r Hj Hr [Hle Hfit]. rewrite Hj. cbn [fold_left]. rewrite Hr.
    unfold append_reads. rewrite append_writes_length, Hlen0.
    rewrite decide_True by lia. unfold append_writes at 1.
    rewrite Hlen0, decide_True by done.
    by rewrite take_app_le.
Qed.

(** On the example with a shared array the first unit of work searches
    with the exclude dir of the second repository. *)
Example unitOfWork_searches_with_other_dirs :
  appendExcludeDirs exampleSharedWorld exampleSharedConfig 0 ["y"] = [".git"; "x"] ∧
  EvExec (lineGrepArgv "/tmp/clone1" ["fell"] [".git"; "x"])
  ∈ (LineMode.unitOfWork map_to_list exampleSharedWorld exampleSharedConfig
       {| Name := "first"; Url := "https://example.org/first.git";
          ExcludeDirs := ["y"] |} 0).1.
Proof.
  split; [reflexivity|]. vm_compute. do 4 right. left.
Qed.

(** The text of the error [Atoi] returns doubles a backslash of its
    input. *)
Example Atoi_error_quotes_input :
  Atoi ("1" +:+ backslash)
  = inr ("strconv.Atoi: parsing " +:+ dquote +:+ "1" +:+ backslash +:+ backslash
         +:+ dquote +:+ ": invalid syntax").
Proof. reflexivity. Qed.
